(** * colorizr: the swatch generator ([src/swatch.ts])

    A shallow embedding of [shadeColor] and [swatch] and the properties the
    specification states about them.

    JavaScript numbers are IEEE 754 binary64 values.  The program is written
    once, over an interface [Number] that names the operators the source
    uses, and it runs at the instance [Float64]: Rocq's primitive binary64
    floats, with their NaN, their infinities and their rounding.  What is
    structural is proved for every instance; what is numeric is proved at
    [Float64], from the specification [SpecFloat] of the primitive floats.

    The operator [**] is implementation-approximated in ECMAScript, so
    [Float64] takes it as a parameter. *)

From Stdlib Require Import ZArith QArith Qreals List String Bool Lia.
From Stdlib Require Import Floats Reals Lra.
Import ListNotations.

Set Warnings "-inexact-float".

Set Implicit Arguments.
Local Open Scope Z_scope.

(** ** Numbers *)

Declare Scope js_scope.
Delimit Scope js_scope with js.

Class Number (N : Type) : Type := {
  lit : Q -> N;            (* a decimal literal, or an integer used as a number *)
  jsub : N -> N -> N;      (* x - y *)
  jmul : N -> N -> N;      (* x * y *)
  jdiv : N -> N -> N;      (* x / y *)
  jpow : N -> N -> N;      (* x ** y *)
  jlt : N -> N -> bool;    (* x < y *)
  jle : N -> N -> bool;    (* x <= y *)
  jeq : N -> N -> bool     (* x === y *)
}.

Arguments lit {N _} _%_Q.

Notation "x - y" := (jsub x y) : js_scope.
Notation "x * y" := (jmul x y) : js_scope.
Notation "x / y" := (jdiv x y) : js_scope.
Notation "x ** y" := (jpow x y) (at level 30, right associativity) : js_scope.
Notation "x <? y" := (jlt x y) : js_scope.
Notation "x <=? y" := (jle x y) : js_scope.
Notation "x >? y" := (jlt y x) : js_scope.
Notation "x >=? y" := (jle y x) : js_scope.
Notation "x === y" := (jeq x y) (at level 70, no associativity) : js_scope.

(** *** binary64 *)

Definition float_of_Z (z : Z) : float :=
  match z with
  | Z0 => PrimFloat.zero
  | Zpos _ => PrimFloat.of_uint63 (Uint63.of_Z z)
  | Zneg p => PrimFloat.opp (PrimFloat.of_uint63 (Uint63.of_Z (Zpos p)))
  end.

(** A decimal literal denotes the binary64 value nearest to it.  For a
    numerator and a denominator below 2^53 that value is their correctly
    rounded quotient. *)
Definition float_lit (q : Q) : float :=
  PrimFloat.div (float_of_Z (Qnum q)) (float_of_Z (Zpos (Qden q))).

Definition Float64 (Math_pow : float -> float -> float) : Number float := {|
  lit := float_lit;
  jsub := PrimFloat.sub;
  jmul := PrimFloat.mul;
  jdiv := PrimFloat.div;
  jpow := Math_pow;
  jlt := PrimFloat.ltb;
  jle := PrimFloat.leb;
  jeq := PrimFloat.eqb
|}.

(** A stand-in for [**] on binary64 where a closed example needs one: the
    exponents 0, 1 and 1.5 only, the last as [x * sqrt x], which is exact at
    the bases 0 and 1 and an approximation in between. *)
Definition pow_sqrt (x y : float) : float :=
  if PrimFloat.eqb y (float_lit 1.5) then PrimFloat.mul x (PrimFloat.sqrt x)
  else if PrimFloat.eqb y PrimFloat.one then x
  else if PrimFloat.eqb y PrimFloat.zero then PrimFloat.one
  else PrimFloat.nan.

(** *** decimal literals as real numbers

    The literals of the source read as the real numbers they denote.  The
    program does not run on this instance; it serves to compare the literals
    of the fixed tables. *)

Definition Rltb (x y : R) : bool := if Rlt_dec x y then true else false.
Definition Rleb (x y : R) : bool := if Rle_dec x y then true else false.
Definition Reqb (x y : R) : bool := if Req_dec_T x y then true else false.

Definition Exact (power : R -> R -> R) : Number R := {|
  lit := Q2R;
  jsub := Rminus;
  jmul := Rmult;
  jdiv := Rdiv;
  jpow := power;
  jlt := Rltb;
  jle := Rleb;
  jeq := Reqb
|}.

(** ** Data model *)

(** [LCH] of [~/types]: lightness, chroma, hue. *)
Record LCH (N : Type) : Type := { l : N; c : N; h : N }.

(** [ColorType] of [~/types]: the name of an output representation. *)
Definition ColorType : Type := string.

Inductive Scale : Type := dynamic | fixed.

(** [SwatchVariant], with the internal default ['base']. *)
Inductive Variant : Type := base | deep | neutral | pastel | subtle | vibrant.

(** [SwatchOptions]: every field is optional. *)
Module SwatchOptions.

Record t (N : Type) : Type := {
  format : option ColorType;
  lightnessFactor : option N;
  maxLightness : option N;
  minLightness : option N;
  scale : option Scale;
  swatchSteps : option Z;
  variant : option Variant
}.

(** The options object [{}]. *)
Definition empty (N : Type) : t N :=
  {| format := None; lightnessFactor := None; maxLightness := None;
     minLightness := None; scale := None; swatchSteps := None;
     variant := None |}.

End SwatchOptions.
Abbreviation SwatchOptions := SwatchOptions.t.

(** The constants bound by the destructuring of [options] (lines 104-112). *)
Record Settings (N : Type) : Type := {
  format : option ColorType;
  lightnessFactor : N;
  maxLightness : N;
  minLightness : N;
  scale : Scale;
  swatchSteps : Z;
  variant : Variant
}.

(** A value a JavaScript caller can pass as [input]. *)
Inductive JsValue : Type :=
| JsUndefined
| JsNull
| JsBoolean (b : bool)
| JsNumber (q : Q)
| JsString (s : string).

(** An object whose keys are integer indices, as [Record<number, T>]: the
    entries are kept in ascending key order, the order in which
    [Object.entries] enumerates such keys. *)
Definition Obj (A : Type) : Type := list (Z * A).

Fixpoint obj_set {A : Type} (key : Z) (value : A) (o : Obj A) : Obj A :=
  match o with
  | [] => [(key, value)]
  | (k, v) :: rest =>
      if key =? k then (key, value) :: rest
      else if key <? k then (key, value) :: (k, v) :: rest
      else (k, v) :: obj_set key value rest
  end.

Fixpoint obj_get {A : Type} (key : Z) (o : Obj A) : option A :=
  match o with
  | [] => None
  | (k, v) :: rest => if key =? k then Some v else obj_get key rest
  end.

Definition obj_keys {A : Type} (o : Obj A) : list Z := map fst o.

(** [Swatch]: tone label to formatted color. *)
Definition Swatch : Type := Obj string.

(** ** Failures and collaborator calls *)

(** Modelled from the spec: the error taxonomy of section 7.  The source raises
    the first two through [invariant] ([~/modules/invariant], not in src) with
    the message given there; [MESSAGES.inputString] is not in src. *)
Inductive Error : Type :=
| InvalidInput
| InvalidOptions (message : string)
| UnparseableColor
| UnsupportedFormat.

(** [{ model }] as returned by [extractColorParts]. *)
Record ColorParts : Type := { model : ColorType }.

(** The functions [swatch] imports from files that are not in src. *)
Record Collaborators (N : Type) : Type := {
  parseCSS : JsValue -> ColorType -> option (LCH N);
  isHex : JsValue -> bool;
  isNamedColor : JsValue -> bool;
  extractColorParts : JsValue -> ColorParts;
  formatCSS : LCH N -> ColorType -> option string
}.

Inductive Call (N : Type) : Type :=
| CallParseCSS (input : JsValue) (space : ColorType)
| CallIsHex (input : JsValue)
| CallIsNamedColor (input : JsValue)
| CallExtractColorParts (input : JsValue)
| CallFormatCSS (color : LCH N) (format : ColorType).

Arguments CallParseCSS {N} _ _.
Arguments CallIsHex {N} _.
Arguments CallIsNamedColor {N} _.
Arguments CallExtractColorParts {N} _.

(** A computation yields the collaborator calls it made, in order, and either
    the error it threw or its value. *)
Definition M (N A : Type) : Type := list (Call N) * (Error + A).

Definition ret {N A : Type} (a : A) : M N A := ([], inr a).

Definition throw {N A : Type} (e : Error) : M N A := ([], inl e).

Definition bind {N A B : Type} (m : M N A) (f : A -> M N B) : M N B :=
  match m with
  | (calls, inl e) => (calls, inl e)
  | (calls, inr a) => let (calls', r) := f a in (calls ++ calls', r)
  end.

Notation "x <- m ;; k" := (bind m (fun x => k))
  (at level 61, m at next level, right associativity).
Notation "m ;; k" := (bind m (fun _ => k))
  (at level 61, right associativity).

(** A logged call of a collaborator that returns. *)
Definition called {N A : Type} (call : Call N) (result : A) : M N A :=
  ([call], inr result).

(** A logged call of a collaborator that may throw. *)
Definition called_or {N A : Type} (call : Call N) (e : Error) (result : option A)
  : M N A :=
  ([call], match result with Some a => inr a | None => inl e end).

Definition calls {N A : Type} (m : M N A) : list (Call N) := fst m.
Definition outcome {N A : Type} (m : M N A) : Error + A := snd m.

(** [value ?? fallback], and a destructuring default. *)
Definition default_of {A : Type} (fallback : A) (value : option A) : A :=
  match value with
  | Some a => a
  | None => fallback
  end.

(** ** The program *)

Section Program.

Context {N : Type} {num : Number N}.
Variable lib : Collaborators N.

Local Open Scope js_scope.

(** Modelled from the spec: [isString] ([~/modules/validators]) is not in
    src; section 4.1 asks for a non-empty textual value. *)
Definition isString (input : JsValue) : bool :=
  match input with
  | JsString s => negb (String.eqb s EmptyString)
  | _ => false
  end.

(** Modelled from the spec: [invariant] ([~/modules/invariant]) is not in src;
    a violated condition fails at once with the given error. *)
Definition invariant (condition : bool) (e : Error) : M N unit :=
  if condition then ret tt else throw e.

(** Modelled from the spec: [clamp] ([~/modules/utils]) is not in src;
    section 4.4 and the glossary describe it as bounding a value to a range. *)
Definition clamp (value lo hi : N) : N :=
  if value <? lo then lo else if hi <? value then hi else value.

(** [shadeColor] (lines 81-93). *)
Definition shadeColor (input : LCH N) (lightness : N) : LCH N :=
  let chromaScale :=
    if c input === lit 0 then lit 1
    else lit 4 * lightness * (lit 1 - lightness) in
  let chroma := c input * chromaScale in
  let adjustedChroma := clamp chroma (lit 0) (lit 0.4) in
  {| l := lightness; c := adjustedChroma; h := h input |}.

(** The destructuring of [options] with its defaults (lines 104-112). *)
Definition destructure (options : SwatchOptions N) : Settings N :=
  {| format := SwatchOptions.format options;
     lightnessFactor := default_of (lit 1.5) (SwatchOptions.lightnessFactor options);
     maxLightness := default_of (lit 0.97) (SwatchOptions.maxLightness options);
     minLightness := default_of (lit 0.2) (SwatchOptions.minLightness options);
     scale := default_of dynamic (SwatchOptions.scale options);
     swatchSteps := default_of 11%Z (SwatchOptions.swatchSteps options);
     variant := default_of base (SwatchOptions.variant options) |}.

(** The condition of the first options check (line 115). *)
Definition lightnessRangeOk (s : Settings N) : bool :=
  (maxLightness s >? minLightness s)
  && (maxLightness s <=? lit 1)
  && (minLightness s >=? lit 0).

(** The condition of the second options check (line 120). *)
Definition swatchStepsOk (s : Settings N) : bool :=
  ((swatchSteps s =? 11) || (swatchSteps s =? 21))%Z.

(** The variant's chroma multiplier (lines 125-132). *)
Definition chromaScale (v : Variant) : N :=
  match v with
  | base => lit 1
  | deep => lit 0.8
  | neutral => lit 0.5
  | pastel => lit 0.3
  | subtle => lit 0.2
  | vibrant => lit 1.25
  end.

Definition set_l (lch : LCH N) (value : N) : LCH N :=
  {| l := value; c := c lch; h := h lch |}.

Definition set_c (lch : LCH N) (value : N) : LCH N :=
  {| l := l lch; c := value; h := h lch |}.

(** The updates of the parsed color (lines 134-139). *)
Definition workingColor (v : Variant) (lch : LCH N) : LCH N :=
  let lch := set_l lch (lit 0.7) in
  let lch := set_c lch (c lch * chromaScale v) in
  match v with
  | deep => set_l lch (l lch * lit 0.7)
  | _ => lch
  end.

(** The same updates with the step of lines 137-139 removed. *)
Definition workingColor_without_deep_step (v : Variant) (lch : LCH N) : LCH N :=
  let lch := set_l lch (lit 0.7) in
  let lch := set_c lch (c lch * chromaScale v) in
  lch.

(** The output representation inferred from the input (line 141). *)
Definition colorFormat (input : JsValue) : M N ColorType :=
  hex <- called (CallIsHex input) (isHex lib input) ;;
  if hex then ret "hex"%string
  else
    named <- called (CallIsNamedColor input) (isNamedColor lib input) ;;
    if named then ret "hex"%string
    else
      parts <- called (CallExtractColorParts input) (extractColorParts lib input) ;;
      ret (model parts).

(** The tone label of a step index (lines 150-172). *)
Definition toneOf (swatchSteps index : Z) : Z :=
  if (swatchSteps =? 11)%Z then
    if (index =? 0)%Z then 50%Z
    else if (index =? 10)%Z then 950%Z
    else (index * 100)%Z
  else
    if (index =? 0)%Z then 0%Z
    else if (index =? 1)%Z then 50%Z
    else if (index =? 20)%Z then 1000%Z
    else ((index - 1) * 50 + 50)%Z.

(** The lightness of a step index (lines 148-149). *)
Definition lightnessOf (s : Settings N) (index : Z) : N :=
  maxLightness s
  - (maxLightness s - minLightness s)
    * (lit (inject_Z index) / lit (inject_Z (swatchSteps s - 1))) ** lightnessFactor s.

(** The indices [0, 1, ..., swatchSteps - 1] the loop of line 146 visits. *)
Definition indices (swatchSteps : Z) : list Z :=
  map Z.of_nat (seq 0 (Z.to_nat swatchSteps)).

(** The loop of lines 146-175. *)
Definition dynamicPalette (s : Settings N) : Obj N :=
  fold_left
    (fun palette index =>
       obj_set (toneOf (swatchSteps s) index) (lightnessOf s index) palette)
    (indices (swatchSteps s)) [].

(** The table of lines 179-191. *)
Definition fixedPalette11 : Obj N :=
  [ (50, lit 0.97); (100, lit 0.92); (200, lit 0.85); (300, lit 0.78);
    (400, lit 0.69); (500, lit 0.57); (600, lit 0.46); (700, lit 0.35);
    (800, lit 0.24); (900, lit 0.18); (950, lit 0.1) ]%Z.

(** The table of lines 193-215. *)
Definition fixedPalette21 : Obj N :=
  [ (0, lit 0.99); (50, lit 0.97); (100, lit 0.94); (150, lit 0.91);
    (200, lit 0.87); (250, lit 0.83); (300, lit 0.78); (350, lit 0.73);
    (400, lit 0.67); (450, lit 0.61); (500, lit 0.55); (550, lit 0.49);
    (600, lit 0.43); (650, lit 0.38); (700, lit 0.33); (750, lit 0.28);
    (800, lit 0.23); (850, lit 0.19); (900, lit 0.15); (950, lit 0.1);
    (1000, lit 0.05) ]%Z.

(** The tone table (lines 143-217). *)
Definition palette (s : Settings N) : Obj N :=
  match scale s with
  | dynamic => dynamicPalette s
  | fixed =>
      if (swatchSteps s =? 11)%Z then fixedPalette11 else fixedPalette21
  end.

(** The first reduction (lines 219-226): one shaded color per tone. *)
Definition shades (lch : LCH N) (palette : Obj N) : Obj (LCH N) :=
  fold_left
    (fun acc entry => obj_set (fst entry) (shadeColor lch (snd entry)) acc)
    palette [].

(** The second reduction (lines 228-233): every shaded color is formatted. *)
Fixpoint formatted (entries : Obj (LCH N)) (fmt : ColorType) (acc : Swatch)
  : M N Swatch :=
  match entries with
  | [] => ret acc
  | (key, value) :: rest =>
      text <- called_or (CallFormatCSS value fmt) UnsupportedFormat
                (formatCSS lib value fmt) ;;
      formatted rest fmt (obj_set key text acc)
  end.

(** Lines 125-233: what [swatch] does with the parsed color, over the updates
    [adjust] applied to it. *)
Definition render (adjust : Variant -> LCH N -> LCH N) (input : JsValue)
  (s : Settings N) (lch : LCH N) : M N Swatch :=
  let lch := adjust (variant s) lch in
  inferred <- colorFormat input ;;
  let output := shades lch (palette s) in
  formatted output (default_of inferred (format s)) [].

(** [swatch] (lines 102-234). *)
Definition swatchWith (adjust : Variant -> LCH N -> LCH N)
  (input : JsValue) (options : SwatchOptions N) : M N Swatch :=
  invariant (isString input) InvalidInput ;;
  let s := destructure options in
  invariant (lightnessRangeOk s)
    (InvalidOptions
       "maxLightness must be greater than minLightness and within the range [0, 1]."%string) ;;
  invariant (swatchStepsOk s)
    (InvalidOptions "swatchSteps must be either 11 or 21."%string) ;;
  lch <- called_or (CallParseCSS input "oklch"%string) UnparseableColor
           (parseCSS lib input "oklch"%string) ;;
  render adjust input s lch.

Definition swatch : JsValue -> SwatchOptions N -> M N Swatch :=
  swatchWith workingColor.

(** [swatch] with the step of lines 137-139 removed. *)
Definition swatch_without_deep_step : JsValue -> SwatchOptions N -> M N Swatch :=
  swatchWith workingColor_without_deep_step.

End Program.

(** ** Sample collaborators and inputs

    Closed examples need collaborators that can be run.  [sampleLib] parses
    three literals (the hex one to rounded coordinates), treats a leading [#]
    as a hex literal, knows no color names, classifies every other input as
    [oklch] and writes every color as the name of the requested
    representation. *)

Definition sampleLib {N : Type} {num : Number N} : Collaborators N := {|
  parseCSS := fun input _ =>
    match input with
    | JsString "oklch(0.6 0.15 250)"%string =>
        Some {| l := lit 0.6; c := lit 0.15; h := lit 250 |}
    | JsString "oklch(0.5 0 0)"%string =>
        Some {| l := lit 0.5; c := lit 0; h := lit 0 |}
    | JsString "#3b82f6"%string =>
        Some {| l := lit 0.62308; c := lit 0.18801; h := lit 259.81 |}
    | _ => None
    end;
  isHex := fun input =>
    match input with
    | JsString s => String.prefix "#"%string s
    | _ => false
    end;
  isNamedColor := fun _ => false;
  extractColorParts := fun _ => {| model := "oklch"%string |};
  formatCSS := fun _ fmt => Some fmt
|}.

(** The instance used in closed examples. *)
Definition sampleFloat64 : Number float := Float64 pow_sqrt.

(** [{ ...options, variant }]. *)
Definition withVariant {N : Type} (options : SwatchOptions N) (v : Variant)
  : SwatchOptions N :=
  {| SwatchOptions.format := SwatchOptions.format options;
     SwatchOptions.lightnessFactor := SwatchOptions.lightnessFactor options;
     SwatchOptions.maxLightness := SwatchOptions.maxLightness options;
     SwatchOptions.minLightness := SwatchOptions.minLightness options;
     SwatchOptions.scale := SwatchOptions.scale options;
     SwatchOptions.swatchSteps := SwatchOptions.swatchSteps options;
     SwatchOptions.variant := Some v |}.

(** [{ maxLightness, minLightness }]. *)
Definition lightnessBounds {N : Type} (hi lo : N) : SwatchOptions N :=
  {| SwatchOptions.format := None;
     SwatchOptions.lightnessFactor := None;
     SwatchOptions.maxLightness := Some hi;
     SwatchOptions.minLightness := Some lo;
     SwatchOptions.scale := None;
     SwatchOptions.swatchSteps := None;
     SwatchOptions.variant := None |}.

(** [{ scale: 'fixed', maxLightness, minLightness, lightnessFactor }]. *)
Definition fixedWith {N : Type} (hi lo factor : option N) : SwatchOptions N :=
  {| SwatchOptions.format := None;
     SwatchOptions.lightnessFactor := factor;
     SwatchOptions.maxLightness := hi;
     SwatchOptions.minLightness := lo;
     SwatchOptions.scale := Some fixed;
     SwatchOptions.swatchSteps := None;
     SwatchOptions.variant := None |}.

(** The tone labels of the two schemes. *)
Definition labels11 : list Z :=
  [50; 100; 200; 300; 400; 500; 600; 700; 800; 900; 950].

Definition labels21 : list Z :=
  [0; 50; 100; 150; 200; 250; 300; 350; 400; 450; 500; 550; 600; 650; 700;
   750; 800; 850; 900; 950; 1000].

(** Keys in strictly ascending order. *)
Fixpoint ascending (keys : list Z) : bool :=
  match keys with
  | [] => true
  | k :: rest =>
      match rest with
      | [] => true
      | k' :: _ => (k <? k') && ascending rest
      end
  end.

(** Options that differ at most in [maxLightness], [minLightness] and
    [lightnessFactor]. *)
Definition sameButLightness {N : Type} (o1 o2 : SwatchOptions N) : Prop :=
  SwatchOptions.format o1 = SwatchOptions.format o2
  /\ SwatchOptions.scale o1 = SwatchOptions.scale o2
  /\ SwatchOptions.swatchSteps o1 = SwatchOptions.swatchSteps o2
  /\ SwatchOptions.variant o1 = SwatchOptions.variant o2.

(** The collaborators with the lightness of every parsed color replaced by
    [relight], everything else unchanged. *)
Definition withParsedLightness {N : Type} (lib : Collaborators N)
  (relight : JsValue -> LCH N -> N) : Collaborators N :=
  {| parseCSS := fun input space =>
       option_map
         (fun lch => {| l := relight input lch; c := c lch; h := h lch |})
         (parseCSS lib input space);
     isHex := isHex lib;
     isNamedColor := isNamedColor lib;
     extractColorParts := extractColorParts lib;
     formatCSS := formatCSS lib |}.

(** [sampleLib] with a formatter that supports no representation. *)
Definition sampleLibNoFormat {N : Type} {num : Number N} : Collaborators N :=
  {| parseCSS := parseCSS sampleLib;
     isHex := isHex sampleLib;
     isNamedColor := isNamedColor sampleLib;
     extractColorParts := extractColorParts sampleLib;
     formatCSS := fun _ _ => None |}.

(** [{ lightnessFactor }]. *)
Definition withFactor {N : Type} (factor : N) : SwatchOptions N :=
  {| SwatchOptions.format := None;
     SwatchOptions.lightnessFactor := Some factor;
     SwatchOptions.maxLightness := None;
     SwatchOptions.minLightness := None;
     SwatchOptions.scale := None;
     SwatchOptions.swatchSteps := None;
     SwatchOptions.variant := None |}.

(** The calls of [formatCSS] in a call log. *)
Definition isFormatCall {N : Type} (call : Call N) : bool :=
  match call with
  | CallFormatCSS _ _ => true
  | _ => false
  end.

(** Values that strictly fall from each one to the next. *)
Fixpoint falling {N : Type} {num : Number N} (values : list N) : bool :=
  match values with
  | [] => true
  | a :: rest =>
      match rest with
      | [] => true
      | b :: _ => jlt b a && falling rest
      end
  end.

(** ** Notions for binary64 arithmetic

    Rocq's primitive floats are specified by [SpecFloat]: a value is a zero,
    an infinity, NaN or a signed mantissa [m] with an exponent [e], standing
    for [m * 2^e], and every operation rounds its exact result to the nearest
    such value, ties to even.  The notions below state what that rounding
    does. *)

(** [V / 2^k] rounded to the nearest integer, ties to even. *)
Definition rne (V k : Z) : Z :=
  let m := V / 2 ^ k in
  let rem := V mod 2 ^ k in
  match 2 * rem ?= 2 ^ k with
  | Lt => m
  | Eq => if Z.even m then m else m + 1
  | Gt => m + 1
  end.

(** What [k] right shifts of [V] leave: the quotient by [2^k], and the
    position of the remainder against half of [2^k] in the round and sticky
    bits. *)
Definition shr_inv (V k : Z) (s : shr_record) : Prop :=
  let rem := V - shr_m s * 2 ^ k in
  0 <= shr_m s /\ 0 <= rem < 2 ^ k /\
  match shr_r s, shr_s s with
  | false, false => rem = 0
  | false, true => 0 < 2 * rem < 2 ^ k
  | true, false => 2 * rem = 2 ^ k
  | true, true => 2 ^ k < 2 * rem
  end.

(** A mantissa and an exponent in the form binary64 stores them: at most 53
    bits, and exactly 53 unless the exponent is the lowest one. *)
Definition canon (q E : Z) : Prop :=
  -1074 <= E /\ 0 <= q < 2 ^ 53 /\ (E = -1074 \/ 2 ^ 52 <= q).

(** [m * 2^e] rounded at the exponent binary64 gives its magnitude. *)
Definition rounded (m : positive) (e : Z) : Z * Z :=
  let E := fexp prec emax (Zpos (digits2_pos m) + e) in
  (rne (Zpos m) (E - e), E).

(** A rounded mantissa that reached [2^53] moves to the next exponent. *)
Definition SFnorm (qE : Z * Z) : Z * Z :=
  if fst qE =? 2 ^ 53 then (2 ^ 52, snd qE + 1) else qE.

(** The binary64 value of a rounded mantissa and exponent: a zero, a finite
    value, or an infinity past the largest exponent. *)
Definition SFresult (sx : bool) (qE : Z * Z) : spec_float :=
  match fst qE with
  | Z0 => S754_zero sx
  | Zpos p => if snd qE <=? 971 then S754_finite sx p (snd qE) else S754_infinity sx
  | Zneg _ => S754_nan
  end.

(** The order of binary64 values, NaN apart, as a lexicographic order. *)
Definition SFkey (x : spec_float) : Z * Z * Z :=
  match x with
  | S754_zero _ => (0, 0, 0)
  | S754_infinity s => (if s then -2 else 2, 0, 0)
  | S754_nan => (0, 0, 0)
  | S754_finite s m e => if s then (-1, - e, - Zpos m) else (1, e, Zpos m)
  end.

Definition lex3 (a b : Z * Z * Z) : comparison :=
  match fst (fst a) ?= fst (fst b) with
  | Eq => match snd (fst a) ?= snd (fst b) with
          | Eq => snd a ?= snd b
          | r => r
          end
  | r => r
  end.

(** Finite and not negative. *)
Definition fnn (x : spec_float) : Prop :=
  match x with
  | S754_zero _ => True
  | S754_finite s _ _ => s = false
  | _ => False
  end.

(** Finite. *)
Definition SFfinite (x : spec_float) : Prop :=
  match x with
  | S754_zero _ | S754_finite _ _ _ => True
  | _ => False
  end.

(** The magnitude of a finite value in units of [2^B]. *)
Definition SFval (B : Z) (x : spec_float) : Z :=
  match x with
  | S754_finite _ m e => Zpos m * 2 ^ (e - B)
  | _ => 0
  end.

(** The sign bit. *)
Definition SFsign (x : spec_float) : bool :=
  match x with
  | S754_zero s | S754_infinity s | S754_finite s _ _ => s
  | S754_nan => false
  end.

(** Not NaN, with a clear sign bit: not negative, infinity included. *)
Definition nn (x : spec_float) : Prop := x <> S754_nan /\ SFsign x = false.

(** 1 and the smallest positive binary64 value. *)
Definition SFone : spec_float := S754_finite false 4503599627370496 (-52).

Definition SFmin : spec_float := S754_finite false 1 (-1074).

Definition SFis_zero (x : spec_float) : bool := SFeqb x (S754_zero false).

(** The product of lines 135 and 86-89 before it is clamped: the chroma [C]
    times the variant's multiplier [K], times 1 when that is zero and times
    the chroma scale [S] otherwise. *)
Definition SFraw (C K S : spec_float) : spec_float :=
  let W := SFmul prec emax C K in
  SFmul prec emax W (if SFis_zero W then SFone else S).

(** What the proofs about the dynamic table take [**] to do at the exponent
    [factor]: [0 ** factor] is 0, [1 ** factor] is 1, and [x ** factor] does
    not fall as [x] rises within [0, 1].  ECMAScript leaves the accuracy of
    [**] to the implementation. *)
Definition PowRises (Math_pow : float -> float -> float) (factor : float) : Prop :=
  PrimFloat.eqb (Math_pow PrimFloat.zero factor) PrimFloat.zero = true
  /\ Math_pow PrimFloat.one factor = PrimFloat.one
  /\ forall x y : float,
       PrimFloat.leb PrimFloat.zero x = true ->
       PrimFloat.leb x y = true ->
       PrimFloat.leb y PrimFloat.one = true ->
       PrimFloat.leb (Math_pow x factor) (Math_pow y factor) = true.

(** [{ maxLightness, minLightness, lightnessFactor }]. *)
Definition lightnessOptions {N : Type} (hi lo factor : N) : SwatchOptions N :=
  {| SwatchOptions.format := None;
     SwatchOptions.lightnessFactor := Some factor;
     SwatchOptions.maxLightness := Some hi;
     SwatchOptions.minLightness := Some lo;
     SwatchOptions.scale := None;
     SwatchOptions.swatchSteps := None;
     SwatchOptions.variant := None |}.

(** * Properties *)

Unset Implicit Arguments.

(** ** The computation monad *)

Section MonadFacts.

Context {N : Type}.

Lemma bind_throw (A B : Type) (e : Error) (f : A -> M N B) :
  bind (throw e) f = throw e.
Proof. reflexivity. Qed.

Lemma bind_ret (A B : Type) (a : A) (f : A -> M N B) :
  bind (ret a) f = f a.
Proof. unfold bind, ret. destruct (f a) as [cs r]. reflexivity. Qed.

Lemma bind_value (A B : Type) (m : M N A) (f : A -> M N B) cs (b : B) :
  bind m f = (cs, inr b) ->
  exists c1 a c2, m = (c1, inr a) /\ f a = (c2, inr b) /\ cs = c1 ++ c2.
Proof.
  destruct m as [c1 [e | a]]; simpl.
  - discriminate.
  - destruct (f a) as [c2 r] eqn:Hf. intros H. inversion H; subst.
    exists c1, a, c2. auto.
Qed.

Lemma calls_bind (A B : Type) (m : M N A) (f : A -> M N B) :
  calls (bind m f) =
  calls m ++ match outcome m with
             | inl _ => []
             | inr a => calls (f a)
             end.
Proof.
  destruct m as [c1 [e | a]]; simpl.
  - now rewrite app_nil_r.
  - destruct (f a) as [c2 r]. reflexivity.
Qed.

Lemma outcome_bind (A B : Type) (m : M N A) (f : A -> M N B) :
  outcome (bind m f) =
  match outcome m with
  | inl e => inl e
  | inr a => outcome (f a)
  end.
Proof.
  destruct m as [c1 [e | a]]; simpl.
  - reflexivity.
  - destruct (f a) as [c2 r]. reflexivity.
Qed.

End MonadFacts.

(** ** Objects with ascending keys *)

Section ObjFacts.

Context {A : Type}.

Lemma ascending_tail (k : Z) (keys : list Z) :
  ascending (k :: keys) = true -> ascending keys = true.
Proof.
  destruct keys as [| k' rest]; [reflexivity |].
  cbn [ascending]. intros H. apply andb_true_iff in H. tauto.
Qed.

Lemma ascending_head (k : Z) (keys : list Z) :
  ascending (k :: keys) = true -> Forall (fun k' => k < k') keys.
Proof.
  revert k. induction keys as [| k' rest IH]; intros k H; [constructor |].
  cbn [ascending] in H. apply andb_true_iff in H. destruct H as [Hk Hrest].
  apply Z.ltb_lt in Hk. constructor; [assumption |].
  specialize (IH k' Hrest).
  eapply Forall_impl; [| exact IH]. simpl. intros; lia.
Qed.

(** Setting a key above every key of the object appends the entry. *)
Lemma obj_set_above (key : Z) (value : A) (o : Obj A) :
  Forall (fun k => k < key) (obj_keys o) ->
  obj_set key value o = o ++ [(key, value)].
Proof.
  induction o as [| [k v] rest IH]; intros H; [reflexivity |].
  inversion H as [| ? ? Hk Hrest]; subst. simpl in Hk.
  cbn [obj_set app].
  replace (key =? k) with false by (symmetry; apply Z.eqb_neq; lia).
  replace (key <? k) with false by (symmetry; apply Z.ltb_ge; lia).
  now rewrite IH.
Qed.

Lemma ascending_before (keys : list Z) (k : Z) (rest : list Z) :
  ascending (keys ++ k :: rest) = true -> Forall (fun k' => k' < k) keys.
Proof.
  induction keys as [| k0 keys IH]; intros H; [constructor |].
  cbn [app] in H. constructor.
  - apply ascending_head in H. rewrite Forall_app in H.
    destruct H as [_ H]. inversion H; subst. assumption.
  - apply IH. eapply ascending_tail. exact H.
Qed.

(** Folding [obj_set] over entries in ascending key order rebuilds them. *)
Lemma fold_obj_set_ascending (B : Type) (f : B -> A) (entries : Obj B) (acc : Obj A) :
  ascending (obj_keys acc ++ obj_keys entries) = true ->
  fold_left (fun o e => obj_set (fst e) (f (snd e)) o) entries acc =
  acc ++ map (fun e => (fst e, f (snd e))) entries.
Proof.
  revert acc. induction entries as [| [k b] rest IH]; intros acc H.
  - simpl. now rewrite app_nil_r.
  - cbn [fold_left map fst snd].
    rewrite obj_set_above by (eapply ascending_before; exact H).
    rewrite IH.
    + now rewrite <- app_assoc.
    + unfold obj_keys in *. rewrite map_app, <- app_assoc. exact H.
Qed.

Lemma obj_get_map (B : Type) (f : B -> A) (key : Z) (o : Obj B) :
  obj_get key (map (fun e => (fst e, f (snd e))) o) = option_map f (obj_get key o).
Proof.
  induction o as [| [k b] rest IH]; [reflexivity |].
  cbn [map obj_get fst snd]. destruct (key =? k); [reflexivity | exact IH].
Qed.

Lemma obj_keys_map (B : Type) (f : B -> A) (o : Obj B) :
  obj_keys (map (fun e => (fst e, f (snd e))) o) = obj_keys o.
Proof.
  unfold obj_keys. rewrite map_map. reflexivity.
Qed.

End ObjFacts.

(** ** What holds for every reading of the numbers *)

Section Structure.

Context {N : Type} {num : Number N}.
Variable lib : Collaborators N.

Local Open Scope js_scope.

Let message_range : string :=
  "maxLightness must be greater than minLightness and within the range [0, 1]."%string.
Let message_steps : string := "swatchSteps must be either 11 or 21."%string.

(** *** Validation *)

Lemma swatchWith_invalid_input adjust input options :
  isString input = false ->
  swatchWith lib adjust input options = ([], inl InvalidInput).
Proof. intros H. unfold swatchWith. rewrite H. reflexivity. Qed.

Lemma swatchWith_invalid_range adjust input options :
  isString input = true ->
  lightnessRangeOk (destructure options) = false ->
  swatchWith lib adjust input options = ([], inl (InvalidOptions message_range)).
Proof. intros H1 H2. unfold swatchWith. rewrite H1, H2. reflexivity. Qed.

Lemma swatchWith_invalid_steps adjust input options :
  isString input = true ->
  lightnessRangeOk (destructure options) = true ->
  swatchStepsOk (destructure options) = false ->
  swatchWith lib adjust input options = ([], inl (InvalidOptions message_steps)).
Proof. intros H1 H2 H3. unfold swatchWith. rewrite H1, H2, H3. reflexivity. Qed.

(** Past the three checks [swatch] is the parse followed by the rendering. *)
Lemma swatchWith_checked adjust input options :
  isString input = true ->
  lightnessRangeOk (destructure options) = true ->
  swatchStepsOk (destructure options) = true ->
  swatchWith lib adjust input options =
  (lch <- called_or (CallParseCSS input "oklch"%string) UnparseableColor
            (parseCSS lib input "oklch"%string) ;;
   render lib adjust input (destructure options) lch).
Proof.
  intros H1 H2 H3. unfold swatchWith. rewrite H1, H2, H3.
  cbn [invariant]. rewrite !bind_ret. reflexivity.
Qed.

(** [formatCSS] never yields an options error, nor does the parse. *)
Lemma formatted_outcome entries fmt acc :
  (exists sw, outcome (formatted lib entries fmt acc) = inr sw)
  \/ outcome (formatted lib entries fmt acc) = inl UnsupportedFormat.
Proof.
  revert acc. induction entries as [| [k v] rest IH]; intros acc.
  - left. exists acc. reflexivity.
  - cbn [formatted]. rewrite outcome_bind. unfold called_or. cbn [outcome snd].
    destruct (formatCSS lib v fmt) as [text |]; [apply IH | now right].
Qed.

Lemma colorFormat_outcome input :
  exists fmt, outcome (colorFormat lib input) = inr fmt.
Proof.
  unfold colorFormat, called. rewrite outcome_bind. cbn [outcome snd].
  destruct (isHex lib input); [now eexists |].
  rewrite outcome_bind. cbn [outcome snd].
  destruct (isNamedColor lib input); [now eexists |].
  rewrite outcome_bind. cbn [outcome snd]. now eexists.
Qed.

Lemma render_outcome adjust input s lch :
  (exists sw, outcome (render lib adjust input s lch) = inr sw)
  \/ outcome (render lib adjust input s lch) = inl UnsupportedFormat.
Proof.
  unfold render. rewrite outcome_bind.
  destruct (colorFormat_outcome input) as [fmt ->].
  apply formatted_outcome.
Qed.

(** When the formatter accepts every color, the rendering returns; so does
    [swatch] once the checks and the parse succeed. *)
Lemma formatted_returns entries fmt acc :
  (forall color, formatCSS lib color fmt <> None) ->
  exists sw, outcome (formatted lib entries fmt acc) = inr sw.
Proof.
  intros Hfmt. revert acc. induction entries as [| [k v] rest IH]; intros acc.
  - exists acc. reflexivity.
  - cbn [formatted]. rewrite outcome_bind. unfold called_or. cbn [outcome snd].
    destruct (formatCSS lib v fmt) as [text |] eqn:Hv; [apply IH |].
    now apply Hfmt in Hv.
Qed.

Lemma swatch_returns input options lch :
  isString input = true ->
  lightnessRangeOk (destructure options) = true ->
  swatchStepsOk (destructure options) = true ->
  parseCSS lib input "oklch"%string = Some lch ->
  (forall color fmt, formatCSS lib color fmt <> None) ->
  exists sw, outcome (swatch lib input options) = inr sw.
Proof.
  intros Hinput Hrange Hsteps Hparse Hfmt. unfold swatch.
  rewrite swatchWith_checked by assumption.
  rewrite outcome_bind, Hparse. unfold called_or. cbn [outcome snd].
  unfold render. rewrite outcome_bind.
  destruct (colorFormat_outcome input) as [inferred ->].
  apply formatted_returns. intros color. apply Hfmt.
Qed.

(** *** The tone table *)

Lemma indices_spec (n i : Z) : (0 <= i < n)%Z -> In i (indices n).
Proof.
  intros H. unfold indices. apply in_map_iff.
  exists (Z.to_nat i). split; [lia |]. apply in_seq. lia.
Qed.

Lemma swatchStepsOk_cases (s : Settings N) :
  swatchStepsOk s = true -> swatchSteps s = 11%Z \/ swatchSteps s = 21%Z.
Proof.
  unfold swatchStepsOk. intros H. apply orb_true_iff in H.
  destruct H as [H | H]; apply Z.eqb_eq in H; auto.
Qed.

(** The loop leaves one entry per index, in index order. *)
Lemma dynamicPalette_entries (s : Settings N) :
  swatchStepsOk s = true ->
  dynamicPalette s =
  map (fun i => (toneOf (swatchSteps s) i, lightnessOf s i)) (indices (swatchSteps s)).
Proof.
  intros H. unfold dynamicPalette. generalize (lightnessOf s). intros f.
  destruct (swatchStepsOk_cases s H) as [-> | ->]; reflexivity.
Qed.

Lemma palette_dynamic_lookup (s : Settings N) (index : Z) :
  scale s = dynamic ->
  swatchStepsOk s = true ->
  (0 <= index < swatchSteps s)%Z ->
  obj_get (toneOf (swatchSteps s) index) (palette s) = Some (lightnessOf s index).
Proof.
  intros Hscale Hsteps Hindex. unfold palette. rewrite Hscale.
  rewrite (dynamicPalette_entries s Hsteps).
  apply indices_spec in Hindex. revert Hindex.
  generalize (lightnessOf s). intros f.
  destruct (swatchStepsOk_cases s Hsteps) as [-> | ->]; cbn [indices];
    intros Hin; cbv in Hin;
    repeat (destruct Hin as [<- | Hin]; [reflexivity |]); contradiction.
Qed.

Lemma palette_keys (s : Settings N) :
  swatchStepsOk s = true ->
  obj_keys (palette s) = if (swatchSteps s =? 11)%Z then labels11 else labels21.
Proof.
  intros H. unfold palette. destruct (scale s).
  - rewrite (dynamicPalette_entries s H). generalize (lightnessOf s). intros f.
    destruct (swatchStepsOk_cases s H) as [-> | ->]; reflexivity.
  - destruct (swatchStepsOk_cases s H) as [-> | ->]; reflexivity.
Qed.

Lemma palette_ascending (s : Settings N) :
  swatchStepsOk s = true -> ascending (obj_keys (palette s)) = true.
Proof.
  intros H. rewrite (palette_keys s H).
  destruct (swatchSteps s =? 11)%Z; reflexivity.
Qed.

(** *** Shading and formatting *)

Lemma shades_entries (lch : LCH N) (table : Obj N) :
  ascending (obj_keys table) = true ->
  shades lch table = map (fun e => (fst e, shadeColor lch (snd e))) table.
Proof.
  intros H. unfold shades.
  exact (fold_obj_set_ascending _ (shadeColor lch) table [] H).
Qed.

Lemma shades_keys (lch : LCH N) (table : Obj N) :
  ascending (obj_keys table) = true ->
  obj_keys (shades lch table) = obj_keys table.
Proof.
  intros H. rewrite (shades_entries lch table H). apply obj_keys_map.
Qed.

Lemma shades_ext (a b : LCH N) (table : Obj N) :
  (forall lightness, shadeColor a lightness = shadeColor b lightness) ->
  shades a table = shades b table.
Proof.
  intros H. unfold shades. generalize (@nil (Z * LCH N)).
  induction table as [| [k v] rest IH]; intros acc; [reflexivity |].
  cbn [fold_left fst snd]. rewrite H. apply IH.
Qed.


(** The colors handed to [formatCSS] are shaded colors of the table. *)
Lemma formatted_calls entries fmt acc color fmt' :
  In (CallFormatCSS color fmt') (calls (formatted lib entries fmt acc)) ->
  exists key, In (key, color) entries.
Proof.
  revert acc. induction entries as [| [k v] rest IH]; intros acc Hin.
  - cbn in Hin. contradiction.
  - cbn [formatted] in Hin. rewrite calls_bind in Hin.
    unfold called_or in Hin. cbn [calls outcome fst snd] in Hin.
    cbn [app] in Hin. destruct Hin as [Heq | Hin].
    + inversion Heq; subst. exists k. now left.
    + destruct (formatCSS lib v fmt) as [text |]; [| contradiction].
      apply IH in Hin. destruct Hin as [key Hin]. exists key. now right.
Qed.

Lemma colorFormat_calls input color fmt :
  ~ In (CallFormatCSS color fmt) (calls (colorFormat lib input)).
Proof.
  unfold colorFormat, called. rewrite calls_bind. cbn [calls outcome fst snd].
  destruct (isHex lib input); cbn.
  - intros [H | []]. discriminate.
  - destruct (isNamedColor lib input); cbn.
    + intros [H | [H | []]]; discriminate.
    + intros [H | [H | [H | []]]]; discriminate.
Qed.

(** The tone table does not read the variant. *)
Lemma palette_ignores_variant (options : SwatchOptions N) (v v' : Variant) :
  palette (destructure (withVariant options v)) =
  palette (destructure (withVariant options v')).
Proof. reflexivity. Qed.

(** Every color handed to [formatCSS] is [shadeColor] applied to the working
    color and a lightness of the tone table. *)
Lemma swatch_formatted_colors input options color fmt :
  In (CallFormatCSS color fmt) (calls (swatch lib input options)) ->
  exists lch tone lightness,
    parseCSS lib input "oklch"%string = Some lch
    /\ swatchStepsOk (destructure options) = true
    /\ In (tone, lightness) (palette (destructure options))
    /\ color =
       shadeColor (workingColor (variant (destructure options)) lch) lightness.
Proof.
  intros Hin. unfold swatch in Hin.
  destruct (isString input) eqn:Hinput;
    [| rewrite swatchWith_invalid_input in Hin by assumption; contradiction].
  destruct (lightnessRangeOk (destructure options)) eqn:Hrange;
    [| rewrite swatchWith_invalid_range in Hin by assumption; contradiction].
  destruct (swatchStepsOk (destructure options)) eqn:Hsteps;
    [| rewrite swatchWith_invalid_steps in Hin by assumption; contradiction].
  rewrite swatchWith_checked in Hin by assumption.
  rewrite calls_bind in Hin. unfold called_or in Hin.
  cbn [calls outcome fst snd app] in Hin.
  destruct Hin as [Hin | Hin]; [discriminate |].
  destruct (parseCSS lib input "oklch"%string) as [lch |]; [| contradiction].
  unfold render in Hin. rewrite calls_bind in Hin. apply in_app_or in Hin.
  destruct Hin as [Hin | Hin]; [now apply colorFormat_calls in Hin |].
  destruct (colorFormat_outcome input) as [inferred Hinferred].
  rewrite Hinferred in Hin.
  apply formatted_calls in Hin. destruct Hin as [tone Hin].
  rewrite shades_entries in Hin by (apply palette_ascending; assumption).
  apply in_map_iff in Hin. destruct Hin as ([k lightness] & Heq & Hin).
  cbn [fst snd] in Heq. inversion Heq; subst.
  exists lch, tone, lightness. auto.
Qed.

(** Conversely, the first entry of the tone table is shaded and handed to
    [formatCSS] whenever the checks and the parse succeed. *)
Lemma swatch_first_format_call input options lch tone lightness rest :
  isString input = true ->
  lightnessRangeOk (destructure options) = true ->
  swatchStepsOk (destructure options) = true ->
  parseCSS lib input "oklch"%string = Some lch ->
  palette (destructure options) = (tone, lightness) :: rest ->
  exists fmt,
    In (CallFormatCSS
          (shadeColor (workingColor (variant (destructure options)) lch) lightness)
          fmt)
       (calls (swatch lib input options)).
Proof.
  intros Hinput Hrange Hsteps Hparse Hpalette. unfold swatch.
  rewrite swatchWith_checked by assumption.
  rewrite calls_bind, Hparse. unfold called_or. cbn [calls outcome fst snd app].
  unfold render. destruct (colorFormat_outcome input) as [inferred Hinferred].
  exists (default_of inferred (format (destructure options))).
  right. rewrite calls_bind, Hinferred. apply in_or_app. right.
  rewrite shades_entries by (apply palette_ascending; assumption).
  rewrite Hpalette. cbn [map formatted fst snd].
  rewrite calls_bind. unfold called_or. cbn [calls fst app]. now left.
Qed.

End Structure.

(** ** Claims that hold for every reading of the numbers *)

Section StructuralClaims.

Context {N : Type} {num : Number N}.
Variable lib : Collaborators N.

Local Open Scope js_scope.



(** C6: with [scale = 'fixed'] two calls whose options differ only in
    [maxLightness], [minLightness] and [lightnessFactor], both passing the
    lightness check, give the same result, and the tone table is the static
    one for the chosen [swatchSteps]. *)
Theorem fixed_scale_ignores_lightness_options
  (input : JsValue) (o1 o2 : SwatchOptions N) :
  sameButLightness o1 o2 ->
  scale (destructure o1) = fixed ->
  lightnessRangeOk (destructure o1) = true ->
  lightnessRangeOk (destructure o2) = true ->
  swatch lib input o1 = swatch lib input o2
  /\ palette (destructure o1) = palette (destructure o2)
  /\ palette (destructure o1) =
     if (swatchSteps (destructure o1) =? 11)%Z
     then [ (50, lit 0.97); (100, lit 0.92); (200, lit 0.85); (300, lit 0.78);
            (400, lit 0.69); (500, lit 0.57); (600, lit 0.46); (700, lit 0.35);
            (800, lit 0.24); (900, lit 0.18); (950, lit 0.1) ]%Z
     else [ (0, lit 0.99); (50, lit 0.97); (100, lit 0.94); (150, lit 0.91);
            (200, lit 0.87); (250, lit 0.83); (300, lit 0.78); (350, lit 0.73);
            (400, lit 0.67); (450, lit 0.61); (500, lit 0.55); (550, lit 0.49);
            (600, lit 0.43); (650, lit 0.38); (700, lit 0.33); (750, lit 0.28);
            (800, lit 0.23); (850, lit 0.19); (900, lit 0.15); (950, lit 0.1);
            (1000, lit 0.05) ]%Z.
Proof.
  intros (Hformat & Hscale & Hsteps & Hvariant) Hfixed Hr1 Hr2.
  assert (Hfixed2 : scale (destructure o2) = fixed).
  { revert Hfixed. unfold destructure. cbn [scale]. now rewrite Hscale. }
  assert (Hsteps' : swatchSteps (destructure o1) = swatchSteps (destructure o2)).
  { unfold destructure. cbn [swatchSteps]. now rewrite Hsteps. }
  assert (Hpalette : palette (destructure o1) = palette (destructure o2)).
  { unfold palette. rewrite Hfixed, Hfixed2, Hsteps'. reflexivity. }
  repeat split.
  - unfold swatch, swatchWith. rewrite Hr1, Hr2.
    unfold swatchStepsOk. rewrite Hsteps'.
    unfold render. rewrite Hpalette.
    replace (variant (destructure o1)) with (variant (destructure o2))
      by (unfold destructure; cbn [variant]; now rewrite Hvariant).
    replace (format (destructure o1)) with (format (destructure o2))
      by (unfold destructure; cbn [format]; now rewrite Hformat).
    reflexivity.
  - exact Hpalette.
  - unfold palette. rewrite Hfixed. reflexivity.
Qed.

(** C7, as the code has it: for an input that is a non-empty string, options
    that violate [maxLightness > minLightness], [maxLightness <= 1],
    [minLightness >= 0] or [swatchSteps] in {11, 21} fail with
    [InvalidOptions] before any collaborator is called; and for every input,
    options that satisfy all four never fail with [InvalidOptions]. *)
Theorem swatch_options_check (input : JsValue) (options : SwatchOptions N) :
  let s := destructure options in
  (isString input = true ->
   (maxLightness s >? minLightness s) = false
   \/ (maxLightness s <=? lit 1) = false
   \/ (minLightness s >=? lit 0) = false
   \/ (swatchSteps s <> 11%Z /\ swatchSteps s <> 21%Z) ->
   exists message,
     swatch lib input options = ([], inl (InvalidOptions message)))
  /\ ((maxLightness s >? minLightness s) = true ->
      (maxLightness s <=? lit 1) = true ->
      (minLightness s >=? lit 0) = true ->
      swatchSteps s = 11%Z \/ swatchSteps s = 21%Z ->
      forall message,
        outcome (swatch lib input options) <> inl (InvalidOptions message)).
Proof.
  intros s. split.
  - intros Hinput Hbad. unfold swatch.
    destruct (lightnessRangeOk s) eqn:Hrange.
    + destruct (swatchStepsOk s) eqn:Hsteps.
      * exfalso. unfold lightnessRangeOk in Hrange.
        apply andb_true_iff in Hrange. destruct Hrange as [Hrange H3].
        apply andb_true_iff in Hrange. destruct Hrange as [H1 H2].
        destruct (swatchStepsOk_cases s Hsteps) as [H11 | H21];
          destruct Hbad as [Hb | [Hb | [Hb | [Hb Hb']]]]; congruence.
      * eexists. apply swatchWith_invalid_steps; assumption.
    + eexists. apply swatchWith_invalid_range; assumption.
  - intros H1 H2 H3 Hsteps message. unfold swatch.
    assert (Hrange : lightnessRangeOk s = true).
    { unfold lightnessRangeOk. now rewrite H1, H2, H3. }
    assert (Hok : swatchStepsOk s = true).
    { unfold swatchStepsOk. destruct Hsteps as [-> | ->]; reflexivity. }
    destruct (isString input) eqn:Hinput.
    + rewrite swatchWith_checked by assumption.
      rewrite outcome_bind. unfold called_or. cbn [outcome snd].
      destruct (parseCSS lib input "oklch"%string) as [lch |]; [| discriminate].
      destruct (render_outcome lib workingColor input (destructure options) lch)
        as [[sw ->] | ->];
        discriminate.
    + rewrite swatchWith_invalid_input by assumption. discriminate.
Qed.

(** C8: an input that is not a non-empty string fails with [InvalidInput], and
    no collaborator, the parser included, is called. *)
Theorem swatch_rejects_non_string (input : JsValue) (options : SwatchOptions N) :
  (forall s, input = JsString s -> s = EmptyString) ->
  swatch lib input options = ([], inl InvalidInput).
Proof.
  intros H. apply swatchWith_invalid_input.
  destruct input as [| | b | q | s]; try reflexivity.
  now rewrite (H s eq_refl).
Qed.

(** [shadeColor] reads the chroma and the hue of its input, never the
    lightness. *)
Lemma shadeColor_ignores_lightness (v : Variant) (lch : LCH N) (lightness : N) :
  shadeColor (workingColor v lch) lightness =
  shadeColor (workingColor_without_deep_step v lch) lightness.
Proof. destruct v; reflexivity. Qed.

(** C9: removing the [deep] lightness multiplication changes nothing: the
    program and the program without that step agree on every input and all
    options, in the calls they make and in what they return. *)
Theorem deep_lightness_step_is_dead (input : JsValue) (options : SwatchOptions N) :
  swatch lib input options = swatch_without_deep_step lib input options.
Proof.
  unfold swatch, swatch_without_deep_step, swatchWith.
  destruct (isString input); [| reflexivity].
  destruct (lightnessRangeOk (destructure options)); [| reflexivity].
  destruct (swatchStepsOk (destructure options)); [| reflexivity].
  cbn [invariant]. rewrite !bind_ret.
  unfold called_or.
  destruct (parseCSS lib input "oklch"%string) as [lch |]; [| reflexivity].
  cbn [bind]. unfold render.
  rewrite (shades_ext _ _ _ (shadeColor_ignores_lightness _ lch)).
  reflexivity.
Qed.

End StructuralClaims.

(** ** Binary64 arithmetic *)

(** *** Binary digits *)

(** [digits2_pos p] is the number of binary digits of [p]. *)
Lemma digits2_pos_bounds (p : positive) :
  2 ^ (Zpos (digits2_pos p) - 1) <= Zpos p < 2 ^ Zpos (digits2_pos p).
Proof.
  induction p as [p IH | p IH |]; cbn [digits2_pos].
  - rewrite Pos2Z.inj_succ. replace (Z.succ (Zpos (digits2_pos p)) - 1) with (Z.succ (Zpos (digits2_pos p) - 1)) by lia.
    rewrite !Z.pow_succ_r by lia. lia.
  - rewrite Pos2Z.inj_succ. replace (Z.succ (Zpos (digits2_pos p)) - 1) with (Z.succ (Zpos (digits2_pos p) - 1)) by lia.
    rewrite !Z.pow_succ_r by lia. lia.
  - cbn. lia.
Qed.

Lemma digits2_unique (p : positive) (d : Z) :
  2 ^ (d - 1) <= Zpos p < 2 ^ d -> Zpos (digits2_pos p) = d.
Proof.
  intros [Hlo Hhi]. pose proof (digits2_pos_bounds p) as [Hlo' Hhi'].
  assert (0 < d). { destruct (Z_lt_le_dec 0 d); [assumption|]. 
    assert (2 ^ d <= 2 ^ 0) by (destruct (Z.eq_dec d 0); [subst; lia|rewrite Z.pow_neg_r by lia; cbn; lia]). cbn in *. lia. }
  destruct (Z.lt_trichotomy (Zpos (digits2_pos p)) d) as [H1 | [H1 | H1]]; [| assumption |].
  - assert (2 ^ Zpos (digits2_pos p) <= 2 ^ (d - 1)) by (apply Z.pow_le_mono_r; lia). lia.
  - assert (2 ^ d <= 2 ^ (Zpos (digits2_pos p) - 1)) by (apply Z.pow_le_mono_r; lia). lia.
Qed.

(** *** Rounding to nearest, ties to even *)

Lemma rne_exact (c k : Z) : 0 <= k -> rne (c * 2 ^ k) k = c.
Proof.
  intros Hk. unfold rne. assert (0 < 2 ^ k) by (apply Z.pow_pos_nonneg; lia).
  rewrite Z.div_mul, Z.mod_mul by lia.
  destruct (Z.compare_spec (2 * 0) (2 ^ k)); try reflexivity; lia.
Qed.

Lemma rne_bounds (V k : Z) : 0 <= k -> V / 2 ^ k <= rne V k <= V / 2 ^ k + 1.
Proof.
  intros Hk. unfold rne. destruct (2 * (V mod 2 ^ k) ?= 2 ^ k); try destruct (Z.even _); lia.
Qed.

(** Rounding does not reverse an order. *)
Lemma rne_mono (V V' k : Z) : 0 <= k -> V <= V' -> rne V k <= rne V' k.
Proof.
  intros Hk HV. assert (Hp : 0 < 2 ^ k) by (apply Z.pow_pos_nonneg; lia).
  pose proof (Z.div_le_mono V V' (2 ^ k) Hp HV) as Hdiv.
  destruct (Z.eq_dec (V / 2 ^ k) (V' / 2 ^ k)) as [Heq | Hne].
  - pose proof (Z.div_mod V (2 ^ k) ltac:(lia)). pose proof (Z.div_mod V' (2 ^ k) ltac:(lia)).
    assert (Hrem : V mod 2 ^ k <= V' mod 2 ^ k) by (rewrite Heq in *; lia).
    unfold rne. rewrite <- Heq.
    destruct (Z.compare_spec (2 * (V mod 2 ^ k)) (2 ^ k));
      destruct (Z.compare_spec (2 * (V' mod 2 ^ k)) (2 ^ k));
      try destruct (Z.even _); lia.
  - pose proof (rne_bounds V k Hk). pose proof (rne_bounds V' k Hk). lia.
Qed.

(** Rounding sees the quotient only. *)
Lemma rne_scale (V k j : Z) : 0 <= k -> 0 <= j -> rne (V * 2 ^ j) (k + j) = rne V k.
Proof.
  intros Hk Hj. assert (Hp : 0 < 2 ^ k) by (apply Z.pow_pos_nonneg; lia).
  assert (Hq : 0 < 2 ^ j) by (apply Z.pow_pos_nonneg; lia).
  unfold rne. rewrite Z.pow_add_r by lia.
  rewrite Z.div_mul_cancel_r by lia.
  rewrite Z.mul_mod_distr_r by lia.
  destruct (Z.compare_spec (2 * (V mod 2 ^ k * 2 ^ j)) (2 ^ k * 2 ^ j));
    destruct (Z.compare_spec (2 * (V mod 2 ^ k)) (2 ^ k)); try reflexivity; nia.
Qed.

(** *** Right shifts *)

Lemma shr_1_inv (V k : Z) (s : shr_record) :
  0 <= k -> shr_inv V k s -> shr_inv V (k + 1) (shr_1 s).
Proof.
  intros Hk. unfold shr_inv. rewrite Z.pow_add_r by lia. change (2 ^ 1) with 2.
  assert (0 < 2 ^ k) by (apply Z.pow_pos_nonneg; lia).
  destruct s as [m r s]. destruct m as [| [p | p |] |]; destruct r, s; cbn [shr_1 shr_m shr_r shr_s orb];
    lia.
Qed.

Lemma iter_shr_inv (V : Z) (p : positive) :
  forall (k : Z) (s : shr_record),
    0 <= k -> shr_inv V k s -> shr_inv V (k + Zpos p) (SpecFloat.iter_pos shr_1 p s).
Proof.
  induction p as [p IH | p IH |]; intros k s Hk Hs; cbn [SpecFloat.iter_pos].
  - replace (k + Zpos p~1) with (k + 1 + Zpos p + Zpos p) by lia.
    apply IH; [lia|]. apply IH; [lia|]. apply shr_1_inv; assumption.
  - replace (k + Zpos p~0) with (k + Zpos p + Zpos p) by lia.
    apply IH; [lia|]. apply IH; assumption.
  - apply shr_1_inv; assumption.
Qed.

(** After [k] shifts, [round_nearest_even] on the round and sticky bits is
    [rne] on the value shifted. *)
Lemma shr_inv_rne (V k : Z) (s : shr_record) :
  0 <= k -> shr_inv V k s ->
  shr_m s = V / 2 ^ k /\
  round_nearest_even (shr_m s) (loc_of_shr_record s) = rne V k.
Proof.
  intros Hk (Hm & Hrem & Hloc).
  assert (Hp : 0 < 2 ^ k) by (apply Z.pow_pos_nonneg; lia).
  assert (Hdiv : V / 2 ^ k = shr_m s).
  { symmetry. apply (Z.div_unique V (2 ^ k) (shr_m s) (V - shr_m s * 2 ^ k)); lia. }
  assert (Hmod : V mod 2 ^ k = V - shr_m s * 2 ^ k).
  { symmetry. apply (Z.mod_unique V (2 ^ k) (shr_m s) (V - shr_m s * 2 ^ k)); lia. }
  split; [symmetry; assumption|].
  unfold rne. rewrite Hdiv, Hmod.
  destruct s as [m r s]; cbn [shr_m shr_r shr_s loc_of_shr_record] in *.
  destruct (Z.compare_spec (2 * (V - m * 2 ^ k)) (2 ^ k)); destruct r, s; cbn [round_nearest_even]; try reflexivity; lia.
Qed.

Lemma fexp_eq (e : Z) : fexp prec emax e = Z.max (e - 53) (-1074).
Proof. reflexivity. Qed.

Lemma shr_fexp_spec (V e : Z) :
  0 <= V ->
  let n := fexp prec emax (Zdigits2 V + e) - e in
  0 <= n ->
  exists s, shr_fexp prec emax V e loc_Exact = (s, e + n) /\
            shr_m s = V / 2 ^ n /\
            round_nearest_even (shr_m s) (loc_of_shr_record s) = rne V n.
Proof.
  intros HV n Hn. unfold shr_fexp. fold n. unfold shr.
  assert (Hinit : shr_inv V 0 (shr_record_of_loc V loc_Exact)).
  { unfold shr_inv; cbn. lia. }
  destruct n as [| p | p] eqn:En.
  - exists (shr_record_of_loc V loc_Exact). split; [f_equal; lia|].
    apply shr_inv_rne; [lia | assumption].
  - exists (SpecFloat.iter_pos shr_1 p (shr_record_of_loc V loc_Exact)). split; [reflexivity|].
    apply shr_inv_rne; [lia|]. apply (iter_shr_inv V p 0); [lia | assumption].
  - lia.
Qed.

Lemma shr_fexp_keep (V e : Z) :
  fexp prec emax (Zdigits2 V + e) - e <= 0 ->
  shr_fexp prec emax V e loc_Exact = (shr_record_of_loc V loc_Exact, e).
Proof.
  intros Hn. unfold shr_fexp, shr.
  destruct (fexp prec emax (Zdigits2 V + e) - e); try reflexivity; lia.
Qed.

(** *** What [binary_round_aux] returns *)

Lemma pow2_pos (k : Z) : 0 <= k -> 0 < 2 ^ k.
Proof. intros Hk. apply Z.pow_pos_nonneg; lia. Qed.

Lemma pow2_step (a b : Z) : 0 <= a < b -> 2 * 2 ^ a <= 2 ^ b.
Proof.
  intros Hab. replace (2 * 2 ^ a) with (2 ^ (a + 1)) by (rewrite Z.pow_add_r by lia; lia).
  apply Z.pow_le_mono_r; lia.
Qed.

Lemma digits_le_53 (p : positive) : Zpos p < 2 ^ 53 -> Zpos (digits2_pos p) <= 53.
Proof.
  intros Hp. pose proof (digits2_pos_bounds p) as [Hlo _].
  destruct (Z_le_gt_dec (Zpos (digits2_pos p)) 53); [assumption|].
  assert (2 ^ 53 <= 2 ^ (Zpos (digits2_pos p) - 1)) by (apply Z.pow_le_mono_r; lia). lia.
Qed.

Lemma rounded_facts (m : positive) (e : Z) :
  e <= fexp prec emax (Zpos (digits2_pos m) + e) ->
  -1074 <= snd (rounded m e) /\
  0 <= fst (rounded m e) <= 2 ^ 53 /\
  (snd (rounded m e) = -1074 \/ 2 ^ 52 <= fst (rounded m e)).
Proof.
  unfold rounded. cbn [fst snd]. set (E := fexp prec emax (Zpos (digits2_pos m) + e)).
  intros HE.
  assert (Hpos : 0 < 2 ^ (E - e)) by (apply pow2_pos; lia).
  pose proof (digits2_pos_bounds m) as [Hlo Hhi].
  assert (HEmin : -1074 <= E) by (unfold E; rewrite fexp_eq; lia).
  split; [assumption|]. split; [split|].
  - rewrite <- (rne_exact 0 (E - e)) at 1 by lia. apply rne_mono; lia.
  - rewrite <- (rne_exact (2 ^ 53) (E - e)) by lia. apply rne_mono; [lia|].
    rewrite <- Z.pow_add_r by lia.
    assert (2 ^ Zpos (digits2_pos m) <= 2 ^ (53 + (E - e))).
    { apply Z.pow_le_mono_r; [lia|]. unfold E. rewrite fexp_eq. lia. }
    lia.
  - destruct (Z.eq_dec E (-1074)) as [|Hne]; [left; assumption|right].
    assert (HEd : E = Zpos (digits2_pos m) + e - 53) by (unfold E in *; rewrite fexp_eq in *; lia).
    rewrite <- (rne_exact (2 ^ 52) (E - e)) at 1 by lia. apply rne_mono; [lia|].
    rewrite <- Z.pow_add_r by lia.
    replace (52 + (E - e)) with (Zpos (digits2_pos m) - 1) by lia. assumption.
Qed.

Lemma norm_canon (qE : Z * Z) :
  -1074 <= snd qE -> 0 <= fst qE <= 2 ^ 53 -> (snd qE = -1074 \/ 2 ^ 52 <= fst qE) ->
  canon (fst (SFnorm qE)) (snd (SFnorm qE)).
Proof.
  destruct qE as [q E]. cbn [fst snd]. intros HE Hq Hn. unfold SFnorm, canon. cbn [fst snd].
  destruct (Z.eqb_spec q (2 ^ 53)); cbn [fst snd]; lia.
Qed.

Lemma norm_value (qE : Z * Z) (B : Z) :
  B <= snd qE ->
  fst (SFnorm qE) * 2 ^ (snd (SFnorm qE) - B) = fst qE * 2 ^ (snd qE - B).
Proof.
  destruct qE as [q E]. cbn [fst snd]. intros HB. unfold SFnorm. cbn [fst snd].
  destruct (Z.eqb_spec q (2 ^ 53)) as [Hq|]; cbn [fst snd]; [|reflexivity].
  subst q. replace (E + 1 - B) with (E - B + 1) by lia. rewrite Z.pow_add_r by lia. lia.
Qed.

(** [binary_round_aux] on an exact [m * 2^e] whose exponent is not above the
    one of its magnitude: the mantissa is rounded at that exponent and the
    result brought to canonical form. *)
Lemma binary_round_aux_spec (sx : bool) (m : positive) (e : Z) :
  e <= fexp prec emax (Zpos (digits2_pos m) + e) ->
  binary_round_aux prec emax sx (Zpos m) e loc_Exact = SFresult sx (SFnorm (rounded m e)).
Proof.
  intros HE. pose proof (rounded_facts m e HE) as (HEmin & Hq & _).
  unfold rounded in *. cbn [fst snd] in *.
  set (E := fexp prec emax (Zpos (digits2_pos m) + e)) in *.
  set (q := rne (Zpos m) (E - e)) in *.
  destruct (shr_fexp_spec (Zpos m) e ltac:(lia) ltac:(cbn [Zdigits2]; fold E; lia)) as (s & Hs & _ & Hround).
  cbn [Zdigits2] in Hs, Hround. fold E in Hs, Hround. fold q in Hround.
  replace (e + (E - e)) with E in Hs by lia.
  unfold binary_round_aux. rewrite Hs, Hround.
  unfold SFnorm. cbn [fst snd]. destruct (Z.eqb_spec q (2 ^ 53)) as [Hcarry | Hcarry].
  - rewrite Hcarry.
    unfold shr_fexp. change (Zdigits2 (2 ^ 53)) with 54. rewrite fexp_eq.
    replace (Z.max (54 + E - 53) (-1074) - E) with 1 by lia.
    cbn [shr SpecFloat.iter_pos shr_record_of_loc]. cbn [shr_1 Z.pow Z.pow_pos Pos.iter Z.mul Pos.mul shr_m].
    unfold SFresult. cbn [fst snd]. reflexivity.
  - rewrite shr_fexp_keep.
    + cbn [shr_record_of_loc shr_m]. unfold SFresult. cbn [fst snd]. destruct q; reflexivity.
    + destruct q as [| p | p]; cbn [Zdigits2]; rewrite fexp_eq; [lia | | lia].
      pose proof (digits_le_53 p ltac:(lia)). lia.
Qed.

(** *** The order of rounded values *)

(** Canonical values compare as their magnitudes do. *)
Lemma result_le (n1 n2 : Z * Z) (B : Z) :
  canon (fst n1) (snd n1) -> canon (fst n2) (snd n2) ->
  B <= snd n1 -> B <= snd n2 ->
  fst n1 * 2 ^ (snd n1 - B) <= fst n2 * 2 ^ (snd n2 - B) ->
  SFleb (SFresult false n1) (SFresult false n2) = true.
Proof.
  destruct n1 as [q1 E1], n2 as [q2 E2]. unfold canon, SFresult. cbn [fst snd].
  intros (HE1 & Hq1 & Hn1) (HE2 & Hq2 & Hn2) HB1 HB2 Hval.
  pose proof (pow2_pos (E1 - B) ltac:(lia)) as HP1.
  pose proof (pow2_pos (E2 - B) ltac:(lia)) as HP2.
  assert (Hexp : 0 < q1 -> E1 <= E2).
  { intros Hpos. destruct (Z_le_gt_dec E1 E2) as [|Hgt]; [assumption|exfalso].
    pose proof (pow2_step (E2 - B) (E1 - B) ltac:(lia)).
    assert (2 ^ 52 <= q1) by lia. nia. }
  destruct q1 as [| p1 | p1]; [| | lia].
  - destruct q2 as [| p2 | p2]; [reflexivity | | lia].
    destruct (E2 <=? 971); reflexivity.
  - specialize (Hexp ltac:(lia)).
    destruct q2 as [| p2 | p2]; [nia | | lia].
    destruct (Z.leb_spec E1 971), (Z.leb_spec E2 971); try reflexivity; [|lia].
    unfold SFleb, SFcompare. destruct (Z.compare_spec E1 E2) as [Heq | Hlt | Hgt]; [| reflexivity | lia].
    subst E2. assert (Zpos p1 <= Zpos p2) by nia.
    change (Pos.compare_cont Eq p1 p2) with (Pos.compare p1 p2).
    destruct (Pos.compare_spec p1 p2); try reflexivity; lia.
Qed.

(** Rounding is monotone: of two exact values the smaller one does not round
    to the larger result. *)
Lemma round_mono (m1 m2 : positive) (e1 e2 B : Z) :
  e1 <= fexp prec emax (Zpos (digits2_pos m1) + e1) ->
  e2 <= fexp prec emax (Zpos (digits2_pos m2) + e2) ->
  B <= e1 -> B <= e2 ->
  Zpos m1 * 2 ^ (e1 - B) <= Zpos m2 * 2 ^ (e2 - B) ->
  SFleb (binary_round_aux prec emax false (Zpos m1) e1 loc_Exact)
        (binary_round_aux prec emax false (Zpos m2) e2 loc_Exact) = true.
Proof.
  intros H1 H2 HB1 HB2 Hval.
  rewrite !binary_round_aux_spec by assumption.
  pose proof (rounded_facts m1 e1 H1) as (HE1 & Hq1 & Hn1).
  pose proof (rounded_facts m2 e2 H2) as (HE2 & Hq2 & Hn2).
  assert (HBE1 : B <= snd (rounded m1 e1)) by (unfold rounded; cbn [snd]; lia).
  assert (HBE2 : B <= snd (rounded m2 e2)) by (unfold rounded; cbn [snd]; lia).
  apply (result_le _ _ B).
  - apply norm_canon; assumption.
  - apply norm_canon; assumption.
  - unfold SFnorm. destruct (_ =? _); cbn [snd]; lia.
  - unfold SFnorm. destruct (_ =? _); cbn [snd]; lia.
  - rewrite !norm_value by assumption.
    unfold rounded in *. cbn [fst snd] in *.
    set (d1 := Zpos (digits2_pos m1)) in *. set (d2 := Zpos (digits2_pos m2)) in *.
    set (E1 := fexp prec emax (d1 + e1)) in *. set (E2 := fexp prec emax (d2 + e2)) in *.
    pose proof (digits2_pos_bounds m1) as [Hlo1 Hhi1]. pose proof (digits2_pos_bounds m2) as [Hlo2 Hhi2].
    fold d1 in Hlo1, Hhi1. fold d2 in Hlo2, Hhi2.
    assert (Hd1 : 0 < d1) by (unfold d1; lia). assert (Hd2 : 0 < d2) by (unfold d2; lia).
    pose proof (pow2_pos (e1 - B) ltac:(lia)) as HP1.
    pose proof (pow2_pos (e2 - B) ltac:(lia)) as HP2.
    assert (HD : d1 + e1 <= d2 + e2).
    { destruct (Z_le_gt_dec (d1 + e1) (d2 + e2)) as [|Hgt]; [assumption|exfalso].
      assert (Hp : 2 ^ (d2 + (e2 - B)) <= 2 ^ (d1 - 1 + (e1 - B))) by (apply Z.pow_le_mono_r; lia).
      rewrite !Z.pow_add_r in Hp by lia. nia. }
    assert (HE : E1 <= E2) by (unfold E1, E2; rewrite !fexp_eq; lia).
    pose proof (pow2_pos (E1 - B) ltac:(lia)) as HQ1.
    pose proof (pow2_pos (E2 - B) ltac:(lia)) as HQ2.
    destruct (Z.eq_dec E1 E2) as [Heq | Hne].
    + rewrite <- Heq.
      apply Z.mul_le_mono_nonneg_r; [lia|].
      rewrite <- (rne_scale (Zpos m1) (E1 - e1) (e1 - B)) by lia.
      rewrite <- (rne_scale (Zpos m2) (E1 - e2) (e2 - B)) by lia.
      replace (E1 - e1 + (e1 - B)) with (E1 - B) by lia.
      replace (E1 - e2 + (e2 - B)) with (E1 - B) by lia.
      apply rne_mono; lia.
    + pose proof (pow2_step (E1 - B) (E2 - B) ltac:(lia)).
      assert (2 ^ 52 <= rne (Zpos m2) (E2 - e2)) by lia. nia.
Qed.

(** A valid finite binary64 value is in canonical form. *)
Lemma valid_finite_canon (s : bool) (m : positive) (e : Z) :
  valid_binary (S754_finite s m e) = true ->
  canon (Zpos m) e /\ e <= 971 /\ fexp prec emax (Zpos (digits2_pos m) + e) = e.
Proof.
  cbn [SpecFloat.valid_binary]. unfold bounded, canonical_mantissa. intros H.
  apply andb_true_iff in H as [Hc Hb]. apply Z.eqb_eq in Hc. apply Z.leb_le in Hb.
  change (emax - prec) with 971 in Hb.
  pose proof (digits2_pos_bounds m) as [Hlo Hhi].
  pose proof Hc as Hc'. rewrite fexp_eq in Hc'.
  assert (Hd : Zpos (digits2_pos m) <= 53) by lia.
  assert (2 ^ Zpos (digits2_pos m) <= 2 ^ 53) by (apply Z.pow_le_mono_r; lia).
  split; [|split; assumption]. unfold canon. split; [lia|]. split; [lia|].
  destruct (Z.eq_dec e (-1074)); [left; assumption|right].
  replace (Zpos (digits2_pos m)) with 53 in Hlo by lia. exact Hlo.
Qed.

(** *** The order on binary64 values *)

(** Comparing two binary64 values the other way round. *)
Lemma SFcompare_antisym (x y : spec_float) :
  SFcompare y x = option_map CompOpp (SFcompare x y).
Proof.
  destruct x as [sx | sx | | sx mx ex], y as [sy | sy | | sy my ey];
    try destruct sx; try destruct sy; try reflexivity;
    cbn [SFcompare option_map]; f_equal;
    rewrite (Z.compare_antisym ex ey); destruct (ex ?= ey)%Z; cbn [CompOpp];
    try reflexivity.
  - f_equal. symmetry. exact (Pos.compare_cont_antisym mx my Eq).
  - symmetry. exact (Pos.compare_cont_antisym mx my Eq).
Qed.

Lemma SFcompare_key (x y : spec_float) :
  x <> S754_nan -> y <> S754_nan -> SFcompare x y = Some (lex3 (SFkey x) (SFkey y)).
Proof.
  intros Hx Hy.
  destruct x as [sx | sx | | sx mx ex], y as [sy | sy | | sy my ey]; try congruence;
    try destruct sx; try destruct sy; try reflexivity;
    cbn [SFcompare SFkey]; unfold lex3; cbn [fst snd]; f_equal.
  rewrite (Z.compare_opp ex ey), (Z.compare_antisym ex ey).
  destruct (ex ?= ey); cbn [CompOpp]; reflexivity.
Qed.

Lemma lex3_le_trans (a b c : Z * Z * Z) :
  lex3 a b <> Gt -> lex3 b c <> Gt -> lex3 a c <> Gt.
Proof.
  destruct a as [[a1 a2] a3], b as [[b1 b2] b3], c as [[c1 c2] c3]. unfold lex3. cbn [fst snd].
  destruct (Z.compare_spec a1 b1), (Z.compare_spec b1 c1), (Z.compare_spec a1 c1); try lia; try congruence;
  destruct (Z.compare_spec a2 b2), (Z.compare_spec b2 c2), (Z.compare_spec a2 c2); try lia; try congruence;
  destruct (Z.compare_spec a3 b3), (Z.compare_spec b3 c3), (Z.compare_spec a3 c3); try lia; congruence.
Qed.

Lemma SFleb_not_nan (x y : spec_float) :
  SFleb x y = true -> x <> S754_nan /\ y <> S754_nan.
Proof.
  unfold SFleb. destruct x, y; cbn; try discriminate; split; congruence.
Qed.

Lemma SFleb_key (x y : spec_float) :
  SFleb x y = true <-> x <> S754_nan /\ y <> S754_nan /\ lex3 (SFkey x) (SFkey y) <> Gt.
Proof.
  split.
  - intros H. destruct (SFleb_not_nan x y H) as [Hx Hy]. split; [assumption|]. split; [assumption|].
    unfold SFleb in H. rewrite SFcompare_key in H by assumption.
    destruct (lex3 (SFkey x) (SFkey y)); congruence.
  - intros (Hx & Hy & H). unfold SFleb. rewrite SFcompare_key by assumption.
    destruct (lex3 (SFkey x) (SFkey y)); congruence.
Qed.

(** Away from NaN, [<=] is a total preorder. *)
Lemma SFleb_trans (x y z : spec_float) :
  SFleb x y = true -> SFleb y z = true -> SFleb x z = true.
Proof.
  rewrite !SFleb_key. intros (Hx & Hy & Hxy) (_ & Hz & Hyz).
  split; [assumption|]. split; [assumption|]. exact (lex3_le_trans _ _ _ Hxy Hyz).
Qed.

Lemma SFleb_refl (x : spec_float) : x <> S754_nan -> SFleb x x = true.
Proof.
  intros Hx. apply SFleb_key. split; [assumption|]. split; [assumption|].
  destruct (SFkey x) as [[a b] c]. unfold lex3. cbn [fst snd]. rewrite !Z.compare_refl. congruence.
Qed.

Lemma SFleb_total (x y : spec_float) :
  x <> S754_nan -> y <> S754_nan -> SFleb x y = true \/ SFleb y x = true.
Proof.
  intros Hx Hy. unfold SFleb. rewrite (SFcompare_antisym x y).
  rewrite (SFcompare_key x y) by assumption. cbn [option_map].
  destruct (lex3 (SFkey x) (SFkey y)); cbn; auto.
Qed.

Lemma SFltb_leb (x y : spec_float) :
  SFltb x y = negb (SFleb y x) \/ x = S754_nan \/ y = S754_nan.
Proof.
  destruct x as [sx | sx | | sx mx ex] eqn:Ex; try (right; left; reflexivity).
  all: destruct y as [sy | sy | | sy my ey] eqn:Ey; try (right; right; reflexivity).
  all: left; rewrite <- Ex, <- Ey; unfold SFltb, SFleb; rewrite (SFcompare_antisym x y);
    rewrite (SFcompare_key x y) by (subst; congruence); cbn [option_map];
    destruct (lex3 (SFkey x) (SFkey y)); reflexivity.
Qed.

(** *** Magnitudes *)

Lemma SFval_nonneg (B : Z) (x : spec_float) : 0 <= SFval B x.
Proof.
  destruct x; cbn [SFval]; lia.
Qed.

(** Finite values that are not negative compare as their magnitudes. *)
Lemma SFleb_val (B : Z) (x y : spec_float) :
  B <= -1074 -> valid_binary x = true -> valid_binary y = true -> fnn x -> fnn y ->
  (SFleb x y = true <-> SFval B x <= SFval B y).
Proof.
  intros HB Hvx Hvy Hx Hy.
  destruct x as [sx | sx | | sx mx ex], y as [sy | sy | | sy my ey]; cbn [fnn] in *; try contradiction; subst.
  - cbn [SFval]. split; [lia | reflexivity].
  - apply valid_finite_canon in Hvy as ((He & _ & _) & _ & _).
    pose proof (pow2_pos (ey - B) ltac:(lia)). cbn [SFval]. split; [nia | reflexivity].
  - apply valid_finite_canon in Hvx as ((He & _ & _) & _ & _).
    pose proof (pow2_pos (ex - B) ltac:(lia)). cbn [SFval]. split; [discriminate | nia].
  - apply valid_finite_canon in Hvx as ((Hex & Hmx & Hnx) & _ & _).
    apply valid_finite_canon in Hvy as ((Hey & Hmy & Hny) & _ & _).
    pose proof (pow2_pos (ex - B) ltac:(lia)). pose proof (pow2_pos (ey - B) ltac:(lia)).
    unfold SFleb, SFcompare, SFval.
    destruct (Z.compare_spec ex ey) as [Heq | Hlt | Hgt].
    + subst ey. change (Pos.compare_cont Eq mx my) with (Pos.compare mx my).
      destruct (Pos.compare_spec mx my); split; intros; try reflexivity; try discriminate; try nia.
    + pose proof (pow2_step (ex - B) (ey - B) ltac:(lia)).
      split; [intros _ | reflexivity]. assert (2 ^ 52 <= Zpos my) by lia. nia.
    + pose proof (pow2_step (ey - B) (ex - B) ltac:(lia)).
      split; [discriminate | intros Hle; exfalso]. assert (2 ^ 52 <= Zpos mx) by lia. nia.
Qed.

Lemma result_zero_le (n : Z * Z) (s : bool) :
  0 <= fst n -> SFleb (S754_zero s) (SFresult false n) = true.
Proof.
  destruct n as [q E]. unfold SFresult. cbn [fst snd]. intros Hq.
  destruct q; [reflexivity | | lia]. destruct (E <=? 971); reflexivity.
Qed.

Lemma norm_rounded_nonneg (m : positive) (e : Z) :
  e <= fexp prec emax (Zpos (digits2_pos m) + e) -> 0 <= fst (SFnorm (rounded m e)).
Proof.
  intros He. destruct (rounded_facts m e He) as (_ & Hq & _).
  unfold SFnorm. destruct (_ =? _); cbn [fst]; lia.
Qed.

(** *** Left shifts and normalization *)

Lemma iter_xO (m d : positive) : Zpos (Pos.iter xO m d) = Zpos m * 2 ^ Zpos d.
Proof.
  revert m. induction d as [d IH | d IH |]; intros m; cbn [Pos.iter].
  - rewrite Pos2Z.inj_xO, !IH. replace (Zpos d~1) with (Zpos d + Zpos d + 1) by lia.
    rewrite !Z.pow_add_r by lia. change (2 ^ 1) with 2. ring.
  - rewrite !IH. replace (Zpos d~0) with (Zpos d + Zpos d) by lia.
    rewrite !Z.pow_add_r by lia. ring.
  - rewrite Pos2Z.inj_xO. change (2 ^ 1) with 2. ring.
Qed.

Lemma shl_align_spec (m : positive) (e e' : Z) :
  snd (shl_align m e e') = Z.min e e' /\
  Zpos (fst (shl_align m e e')) = Zpos m * 2 ^ (e - Z.min e e').
Proof.
  unfold shl_align. destruct (e' - e) as [| d | d] eqn:Hd; cbn [fst snd].
  - replace (Z.min e e') with e by lia. rewrite Z.sub_diag. cbn. lia.
  - replace (Z.min e e') with e by lia. rewrite Z.sub_diag. cbn. lia.
  - replace (Z.min e e') with e' by lia. split; [reflexivity|].
    rewrite iter_xO. f_equal. f_equal. lia.
Qed.

Lemma digits2_shift (m : positive) (d : Z) (m' : positive) :
  0 <= d -> Zpos m' = Zpos m * 2 ^ d ->
  Zpos (digits2_pos m') = Zpos (digits2_pos m) + d.
Proof.
  intros Hd Hm. apply digits2_unique. rewrite Hm.
  pose proof (digits2_pos_bounds m) as [Hlo Hhi].
  pose proof (pow2_pos d Hd).
  replace (Zpos (digits2_pos m) + d - 1) with (Zpos (digits2_pos m) - 1 + d) by lia.
  rewrite !Z.pow_add_r by lia. nia.
Qed.

Lemma binary_round_spec (s : bool) (m : positive) (e : Z) :
  exists (m' : positive) (e' : Z),
    binary_round prec emax s m e = binary_round_aux prec emax s (Zpos m') e' loc_Exact
    /\ e' <= fexp prec emax (Zpos (digits2_pos m') + e')
    /\ e' = Z.min e (fexp prec emax (Zpos (digits2_pos m) + e))
    /\ Zpos m' = Zpos m * 2 ^ (e - e').
Proof.
  unfold binary_round.
  pose proof (shl_align_spec m e (fexp prec emax (Zpos (digits2_pos m) + e))) as [Hsnd Hfst].
  destruct (shl_align m e (fexp prec emax (Zpos (digits2_pos m) + e))) as [m' e'].
  cbn [fst snd] in *. exists m', e'. split; [reflexivity|].
  assert (Hm' : Zpos m' = Zpos m * 2 ^ (e - e')) by (rewrite Hfst; do 2 f_equal; lia).
  split; [|split; assumption].
  rewrite (digits2_shift m (e - e') m') by (assumption || lia).
  replace (Zpos (digits2_pos m) + (e - e') + e') with (Zpos (digits2_pos m) + e) by lia. lia.
Qed.

(** [binary_normalize] is monotone on exact values that are not negative. *)
Lemma binary_normalize_mono (z1 z2 e1 e2 B : Z) :
  0 <= z1 -> B <= e1 -> B <= e2 -> B <= -1074 ->
  z1 * 2 ^ (e1 - B) <= z2 * 2 ^ (e2 - B) ->
  SFleb (binary_normalize prec emax z1 e1 false) (binary_normalize prec emax z2 e2 false) = true.
Proof.
  intros Hz1 HB1 HB2 HB Hval.
  pose proof (pow2_pos (e1 - B) ltac:(lia)). pose proof (pow2_pos (e2 - B) ltac:(lia)).
  assert (Hz2 : 0 <= z2) by nia.
  destruct z2 as [| m2 | m2]; [| | lia].
  - assert (z1 = 0) by nia. subst. reflexivity.
  - cbn [binary_normalize].
    destruct (binary_round_spec false m2 e2) as (m2' & e2' & -> & Hok2 & He2 & Hm2).
    destruct z1 as [| m1 | m1]; [| | lia].
    + cbn [binary_normalize]. rewrite binary_round_aux_spec by assumption.
      apply result_zero_le. apply norm_rounded_nonneg. assumption.
    + cbn [binary_normalize].
      destruct (binary_round_spec false m1 e1) as (m1' & e1' & -> & Hok1 & He1 & Hm1).
      assert (-1074 <= fexp prec emax (Zpos (digits2_pos m1) + e1)) by (rewrite fexp_eq; lia).
      assert (-1074 <= fexp prec emax (Zpos (digits2_pos m2) + e2)) by (rewrite fexp_eq; lia).
      apply (round_mono m1' m2' e1' e2' B); try assumption; try lia.
      rewrite Hm1, Hm2. rewrite <- !Z.mul_assoc, <- !Z.pow_add_r by lia.
      replace (e1 - e1' + (e1' - B)) with (e1 - B) by lia.
      replace (e2 - e2' + (e2' - B)) with (e2 - B) by lia. assumption.
Qed.

Lemma binary_normalize_nonneg (z e : Z) (s : bool) :
  0 <= z -> SFleb (S754_zero s) (binary_normalize prec emax z e false) = true.
Proof.
  intros Hz. destruct z as [| m | m]; [reflexivity | | lia].
  cbn [binary_normalize].
  destruct (binary_round_spec false m e) as (m' & e' & -> & Hok & _ & _).
  rewrite binary_round_aux_spec by assumption.
  apply result_zero_le. apply norm_rounded_nonneg. assumption.
Qed.

Lemma binary_round_aux_valid (s : bool) (m : positive) (e : Z) (j : Z) (mj : positive) :
  valid_binary (S754_finite s m e) = true -> 0 <= j -> Zpos mj = Zpos m * 2 ^ j ->
  binary_round_aux prec emax s (Zpos mj) (e - j) loc_Exact = S754_finite s m e.
Proof.
  intros Hv Hj Hmj. apply valid_finite_canon in Hv as ((He & Hm & Hn) & Hmax & Hfexp).
  pose proof (digits2_shift m j mj Hj Hmj) as Hd.
  assert (HE : fexp prec emax (Zpos (digits2_pos mj) + (e - j)) = e).
  { rewrite Hd. replace (Zpos (digits2_pos m) + j + (e - j)) with (Zpos (digits2_pos m) + e) by lia.
    assumption. }
  rewrite binary_round_aux_spec by lia.
  unfold rounded. rewrite HE. replace (e - (e - j)) with j by lia.
  rewrite Hmj, rne_exact by lia.
  unfold SFnorm. cbn [fst snd]. destruct (Z.eqb_spec (Zpos m) (2 ^ 53)); [lia|].
  unfold SFresult. cbn [fst snd]. destruct (Z.leb_spec e 971); [reflexivity | lia].
Qed.

(** A binary64 value normalizes to itself. *)
Lemma binary_normalize_valid (m : positive) (e : Z) :
  valid_binary (S754_finite false m e) = true ->
  binary_normalize prec emax (Zpos m) e false = S754_finite false m e.
Proof.
  intros Hv. cbn [binary_normalize]. unfold binary_round.
  pose proof (valid_finite_canon false m e Hv) as (_ & _ & Hfexp).
  rewrite Hfexp. unfold shl_align. rewrite Z.sub_diag.
  replace e with (e - 0) at 1 by lia.
  apply binary_round_aux_valid; [assumption | lia | cbn; lia].
Qed.

Lemma fnn_zero_le (x : spec_float) (s : bool) : fnn x -> SFleb (S754_zero s) x = true.
Proof. destruct x as [sx | sx | | sx mx ex]; cbn [fnn]; intros H; try contradiction; subst; reflexivity. Qed.

(** *** Subtraction *)

(** [a - y] for [0 <= y <= a] is the rounding of the exact difference. *)
Lemma SFsub_normalize (ma : positive) (ea : Z) (y : spec_float) :
  valid_binary (S754_finite false ma ea) = true -> valid_binary y = true -> fnn y ->
  SFleb y (S754_finite false ma ea) = true ->
  exists z e,
    SFsub prec emax (S754_finite false ma ea) y = binary_normalize prec emax z e false
    /\ -1074 <= e /\ 0 <= z
    /\ z * 2 ^ (e - -1074) = SFval (-1074) (S754_finite false ma ea) - SFval (-1074) y.
Proof.
  intros Hva Hvy Hy Hle.
  pose proof (valid_finite_canon _ _ _ Hva) as ((Hea & _ & _) & _ & _).
  apply (SFleb_val (-1074)) in Hle; [| lia | assumption | assumption | assumption | reflexivity].
  destruct y as [sy | sy | | sy my ey]; cbn [fnn] in Hy; try contradiction.
  - exists (Zpos ma), ea. cbn [SFsub]. rewrite binary_normalize_valid by assumption.
    split; [reflexivity|]. split; [assumption|]. split; [lia|]. cbn [SFval]. lia.
  - subst sy. pose proof (valid_finite_canon _ _ _ Hvy) as ((Hey & _ & _) & _ & _).
    cbn [SFsub cond_Zopp].
    pose proof (shl_align_spec ma ea (Z.min ea ey)) as [_ HMa].
    pose proof (shl_align_spec my ey (Z.min ea ey)) as [_ HMy].
    replace (Z.min ea (Z.min ea ey)) with (Z.min ea ey) in HMa by lia.
    replace (Z.min ey (Z.min ea ey)) with (Z.min ea ey) in HMy by lia.
    set (ez := Z.min ea ey) in *.
    exists (Zpos (fst (shl_align ma ea ez)) - Zpos (fst (shl_align my ey ez))), ez.
    split; [reflexivity|]. split; [lia|].
    assert (Hval : (Zpos (fst (shl_align ma ea ez)) - Zpos (fst (shl_align my ey ez))) * 2 ^ (ez - -1074)
                   = Zpos ma * 2 ^ (ea - -1074) - Zpos my * 2 ^ (ey - -1074)).
    { rewrite HMa, HMy, Z.mul_sub_distr_r.
      rewrite <- !Z.mul_assoc, <- !Z.pow_add_r by lia.
      replace (ea - ez + (ez - -1074)) with (ea - -1074) by lia.
      replace (ey - ez + (ez - -1074)) with (ey - -1074) by lia. reflexivity. }
    split; [|exact Hval].
    cbn [SFval] in Hle. pose proof (pow2_pos (ez - -1074) ltac:(lia)). nia.
Qed.

(** [a - y] does not rise with [y]. *)
Lemma SFsub_antitone (ma : positive) (ea : Z) (y y' : spec_float) :
  valid_binary (S754_finite false ma ea) = true -> valid_binary y = true -> valid_binary y' = true ->
  fnn y -> fnn y' ->
  SFleb y y' = true -> SFleb y' (S754_finite false ma ea) = true ->
  SFleb (SFsub prec emax (S754_finite false ma ea) y')
        (SFsub prec emax (S754_finite false ma ea) y) = true.
Proof.
  intros Hva Hvy Hvy' Hy Hy' Hyy' Hy'a.
  pose proof (SFleb_trans _ _ _ Hyy' Hy'a) as Hya.
  destruct (SFsub_normalize ma ea y Hva Hvy Hy Hya) as (z & e & -> & He & Hz & Hval).
  destruct (SFsub_normalize ma ea y' Hva Hvy' Hy' Hy'a) as (z' & e' & -> & He' & Hz' & Hval').
  apply (binary_normalize_mono z' z e' e (-1074)); try lia.
  rewrite Hval, Hval'.
  apply (SFleb_val (-1074)) in Hyy'; [lia | lia | assumption | assumption | assumption | assumption].
Qed.

Lemma SFsub_nonneg (ma : positive) (ea : Z) (y : spec_float) (s : bool) :
  valid_binary (S754_finite false ma ea) = true -> valid_binary y = true -> fnn y ->
  SFleb y (S754_finite false ma ea) = true ->
  SFleb (S754_zero s) (SFsub prec emax (S754_finite false ma ea) y) = true.
Proof.
  intros Hva Hvy Hy Hya.
  destruct (SFsub_normalize ma ea y Hva Hvy Hy Hya) as (z & e & -> & He & Hz & Hval).
  apply binary_normalize_nonneg. assumption.
Qed.

Lemma SFsub_le (ma : positive) (ea : Z) (y : spec_float) :
  valid_binary (S754_finite false ma ea) = true -> valid_binary y = true -> fnn y ->
  SFleb y (S754_finite false ma ea) = true ->
  SFleb (SFsub prec emax (S754_finite false ma ea) y) (S754_finite false ma ea) = true.
Proof.
  intros Hva Hvy Hy Hya.
  change (S754_finite false ma ea) with (SFsub prec emax (S754_finite false ma ea) (S754_zero false)) at 2.
  apply SFsub_antitone; try assumption; try reflexivity.
  apply fnn_zero_le. assumption.
Qed.

(** *** Multiplication *)

Lemma mul_shift_ok (sx sy : bool) (mx my : positive) (ex ey : Z) :
  valid_binary (S754_finite sx mx ex) = true -> valid_binary (S754_finite sy my ey) = true ->
  ex + ey <= fexp prec emax (Zpos (digits2_pos (mx * my)) + (ex + ey)).
Proof.
  intros Hx Hy.
  apply valid_finite_canon in Hx as ((Hex & Hmx & Hnx) & _ & _).
  apply valid_finite_canon in Hy as ((Hey & Hmy & Hny) & _ & _).
  rewrite fexp_eq.
  destruct (Z.eq_dec ex (-1074)) as [Hx0 | Hx0]; destruct (Z.eq_dec ey (-1074)) as [Hy0 | Hy0]; try lia.
  all: assert (Hprod : 2 ^ 52 <= Zpos (mx * my)) by (rewrite Pos2Z.inj_mul; nia).
  all: pose proof (digits2_pos_bounds (mx * my)) as [_ Hhi].
  all: assert (52 < Zpos (digits2_pos (mx * my)))
         by (apply (Z.pow_lt_mono_r_iff 2); lia).
  all: lia.
Qed.

(** The product of two finite values is the rounding of the exact product. *)
Lemma SFmul_finite (sx sy : bool) (mx my : positive) (ex ey : Z) :
  valid_binary (S754_finite sx mx ex) = true -> valid_binary (S754_finite sy my ey) = true ->
  SFmul prec emax (S754_finite sx mx ex) (S754_finite sy my ey) =
  SFresult (xorb sx sy) (SFnorm (rounded (mx * my) (ex + ey))).
Proof.
  intros Hx Hy. cbn [SFmul]. apply binary_round_aux_spec. eapply mul_shift_ok; eassumption.
Qed.

Lemma SFmul_comm (x y : spec_float) : SFmul prec emax x y = SFmul prec emax y x.
Proof.
  destruct x as [sx | sx | | sx mx ex], y as [sy | sy | | sy my ey]; cbn [SFmul];
    rewrite ?(xorb_comm sx sy); try reflexivity.
  rewrite (Pos.mul_comm mx my), (Z.add_comm ex ey). reflexivity.
Qed.

(** Multiplying by a finite value that is not negative keeps the order of
    finite values that are not negative. *)
Lemma SFmul_mono_fnn (x y k : spec_float) :
  valid_binary x = true -> valid_binary y = true -> valid_binary k = true ->
  fnn x -> fnn y -> fnn k ->
  SFleb x y = true ->
  SFleb (SFmul prec emax x k) (SFmul prec emax y k) = true.
Proof.
  intros Hvx Hvy Hvk Hx Hy Hk Hle.
  apply (SFleb_val (-1074)) in Hle; [| lia | assumption..].
  destruct k as [sk | sk | | sk mk ek]; cbn [fnn] in Hk; try contradiction.
  - destruct x as [sx | sx | | sx mx ex], y as [sy | sy | | sy my ey]; cbn [fnn] in *; try contradiction;
      reflexivity.
  - subst sk.
    destruct y as [sy | sy | | sy my ey]; cbn [fnn] in Hy; try contradiction.
    + destruct x as [sx | sx | | sx mx ex]; cbn [fnn] in Hx; try contradiction; [reflexivity|].
      exfalso. subst. apply valid_finite_canon in Hvx as ((Hex & _ & _) & _ & _).
      cbn [SFval] in Hle. pose proof (pow2_pos (ex - -1074) ltac:(lia)). nia.
    + subst sy. rewrite (SFmul_finite false false my mk ey ek) by assumption.
      destruct x as [sx | sx | | sx mx ex]; cbn [fnn] in Hx; try contradiction.
      * cbn [SFmul]. apply result_zero_le. apply norm_rounded_nonneg.
        eapply mul_shift_ok; eassumption.
      * subst sx. rewrite (SFmul_finite false false mx mk ex ek) by assumption.
        rewrite <- !binary_round_aux_spec by (eapply mul_shift_ok; eassumption).
        pose proof (valid_finite_canon _ _ _ Hvx) as ((Hex & _ & _) & _ & _).
        pose proof (valid_finite_canon _ _ _ Hvy) as ((Hey & _ & _) & _ & _).
        pose proof (valid_finite_canon _ _ _ Hvk) as ((Hek & _ & _) & _ & _).
        apply (round_mono (mx * mk) (my * mk) (ex + ek) (ey + ek) (-2148));
          try (eapply mul_shift_ok; eassumption); try lia.
        cbn [SFval] in Hle. rewrite !Pos2Z.inj_mul.
        replace (ex + ek - -2148) with ((ex - -1074) + (ek - -1074)) by lia.
        replace (ey + ek - -2148) with ((ey - -1074) + (ek - -1074)) by lia.
        rewrite !Z.pow_add_r by lia.
        pose proof (pow2_pos (ek - -1074) ltac:(lia)). nia.
Qed.

(** [x * 1] is [x]. *)
Lemma SFmul_one (x : spec_float) : valid_binary x = true -> SFmul prec emax x SFone = x.
Proof.
  intros Hv. destruct x as [sx | sx | | sx mx ex]; cbn [SFmul SFone]; rewrite ?xorb_false_r; try reflexivity.
  replace (ex + -52) with (ex - 52) by lia.
  apply binary_round_aux_valid; [assumption | lia |].
  rewrite Pos2Z.inj_mul. reflexivity.
Qed.

(** *** Signs *)

Lemma result_sign (s : bool) (n : Z * Z) :
  0 <= fst n -> SFsign (SFresult s n) = s /\ SFabs (SFresult s n) = SFresult false n /\ SFresult s n <> S754_nan.
Proof.
  destruct n as [q E]. unfold SFresult. cbn [fst snd]. intros Hq.
  destruct q; [| | lia]; [|destruct (E <=? 971)]; repeat split; cbn; congruence.
Qed.

Lemma SFmul_sign (x y : spec_float) :
  valid_binary x = true -> valid_binary y = true ->
  SFmul prec emax x y <> S754_nan ->
  SFsign (SFmul prec emax x y) = xorb (SFsign x) (SFsign y).
Proof.
  intros Hx Hy.
  destruct x as [sx | sx | | sx mx ex], y as [sy | sy | | sy my ey]; cbn [SFmul SFsign]; try congruence.
  intros _. fold (SFmul prec emax (S754_finite sx mx ex) (S754_finite sy my ey)).
  rewrite SFmul_finite by assumption.
  apply result_sign. apply norm_rounded_nonneg. eapply mul_shift_ok; eassumption.
Qed.

Lemma SFmul_abs (x y : spec_float) :
  valid_binary x = true -> valid_binary y = true ->
  SFabs (SFmul prec emax x y) = SFmul prec emax (SFabs x) (SFabs y).
Proof.
  intros Hx Hy.
  destruct x as [sx | sx | | sx mx ex], y as [sy | sy | | sy my ey]; cbn [SFmul SFabs]; try reflexivity.
  fold (SFmul prec emax (S754_finite sx mx ex) (S754_finite sy my ey)).
  fold (SFmul prec emax (S754_finite false mx ex) (S754_finite false my ey)).
  rewrite !SFmul_finite by assumption.
  apply result_sign. apply norm_rounded_nonneg. eapply mul_shift_ok; eassumption.
Qed.

Lemma SFabs_valid (x : spec_float) : valid_binary x = true -> valid_binary (SFabs x) = true.
Proof. destruct x; cbn; auto. Qed.

Lemma SFsign_false (x : spec_float) :
  x <> S754_nan -> SFsign x = false -> SFabs x = x /\ SFleb (S754_zero false) x = true.
Proof.
  destruct x as [sx | sx | | sx mx ex]; cbn [SFsign SFabs]; intros Hn Hs; try congruence; subst;
    split; reflexivity.
Qed.

Lemma SFsign_true (x : spec_float) :
  SFsign x = true -> SFleb x (S754_zero false) = true.
Proof.
  destruct x as [sx | sx | | sx mx ex]; cbn [SFsign]; intros Hs; try congruence; subst; reflexivity.
Qed.

(** *** Primitive floats through their specification *)

Lemma float_leb_trans (x y z : float) :
  PrimFloat.leb x y = true -> PrimFloat.leb y z = true -> PrimFloat.leb x z = true.
Proof. rewrite !leb_spec. apply SFleb_trans. Qed.

Lemma float_eqb_leb (x y : float) :
  PrimFloat.eqb x y = true -> PrimFloat.leb x y = true /\ PrimFloat.leb y x = true.
Proof.
  rewrite eqb_spec, !leb_spec. unfold SFeqb, SFleb. rewrite (SFcompare_antisym (Prim2SF x) (Prim2SF y)).
  destruct (SFcompare (Prim2SF x) (Prim2SF y)) as [[| |]|]; cbn; try discriminate. auto.
Qed.

Lemma float_ltb_leb (x y : float) :
  PrimFloat.ltb x y = true -> PrimFloat.leb x y = true.
Proof.
  rewrite ltb_spec, leb_spec. unfold SFltb, SFleb.
  destruct (SFcompare (Prim2SF x) (Prim2SF y)) as [[| |]|]; congruence.
Qed.

Lemma float_leb_ltb (x y : float) :
  PrimFloat.leb x y = true -> PrimFloat.ltb y x = false.
Proof.
  rewrite ltb_spec, leb_spec. unfold SFltb, SFleb. rewrite (SFcompare_antisym (Prim2SF x) (Prim2SF y)).
  destruct (SFcompare (Prim2SF x) (Prim2SF y)) as [[| |]|]; cbn; congruence.
Qed.

Lemma float_leb_antisym_eqb (x y : float) :
  PrimFloat.leb x y = true -> PrimFloat.leb y x = true -> PrimFloat.eqb x y = true.
Proof.
  rewrite eqb_spec, !leb_spec. unfold SFeqb, SFleb. rewrite (SFcompare_antisym (Prim2SF x) (Prim2SF y)).
  destruct (SFcompare (Prim2SF x) (Prim2SF y)) as [[| |]|]; cbn; congruence.
Qed.

Lemma Prim2SF_zero : Prim2SF PrimFloat.zero = S754_zero false.
Proof. reflexivity. Qed.

Lemma Prim2SF_one : Prim2SF PrimFloat.one = SFone.
Proof. reflexivity. Qed.

Lemma fnn_between (x b : spec_float) :
  SFleb (S754_zero false) x = true -> SFleb x b = true -> fnn b -> fnn x.
Proof.
  destruct x as [sx | sx | | sx mx ex]; cbn [fnn]; try destruct sx; try discriminate; try reflexivity; auto.
  destruct b as [sb | sb | | sb mb eb]; cbn [fnn]; try discriminate; try contradiction.
Qed.

Lemma fnn_one : fnn SFone.
Proof. reflexivity. Qed.

Lemma fnn_positive (x y : spec_float) :
  fnn y -> SFleb (S754_zero false) x = true -> SFltb x y = true ->
  exists m e, y = S754_finite false m e.
Proof.
  destruct y as [sy | sy | | sy my ey]; cbn [fnn]; try contradiction; intros Hy Hx Hlt.
  - destruct x as [sx | sx | | sx mx ex]; try destruct sx; discriminate.
  - subst. eauto.
Qed.

Lemma float_mul_one (x : float) : PrimFloat.mul x PrimFloat.one = x.
Proof.
  apply Prim2SF_inj. rewrite mul_spec, Prim2SF_one. apply SFmul_one. apply Prim2SF_valid.
Qed.

(** *** The lightness formula

    [hi - (hi - lo) * p] for bounds that pass the check of line 115 and a
    weight [p]. *)

Section LightnessRange.

Variables hi lo : float.

Hypothesis Hrange :
  PrimFloat.ltb lo hi && PrimFloat.leb hi PrimFloat.one && PrimFloat.leb PrimFloat.zero lo = true.

(** Valid bounds are finite, and so is their distance, which is at most
    [hi]. *)
Lemma range_facts :
  (exists m e, Prim2SF hi = S754_finite false m e)
  /\ fnn (Prim2SF lo)
  /\ PrimFloat.leb lo hi = true
  /\ fnn (Prim2SF (PrimFloat.sub hi lo))
  /\ PrimFloat.leb (PrimFloat.sub hi lo) hi = true.
Proof.
  apply andb_true_iff in Hrange as [H12 H3]. apply andb_true_iff in H12 as [H1 H2].
  pose proof (float_ltb_leb _ _ H1) as Hle.
  rewrite ltb_spec in H1. rewrite leb_spec, Prim2SF_one in H2. rewrite leb_spec, Prim2SF_zero in H3.
  assert (Hhi0 : SFleb (S754_zero false) (Prim2SF hi) = true).
  { eapply SFleb_trans; [exact H3|]. rewrite <- leb_spec. exact Hle. }
  pose proof (fnn_between _ _ Hhi0 H2 fnn_one) as Hfhi.
  destruct (fnn_positive _ _ Hfhi H3 H1) as (m & e & Hhi).
  assert (Hflo : fnn (Prim2SF lo)).
  { apply (fnn_between _ (Prim2SF hi)); [assumption | rewrite <- leb_spec; assumption | assumption]. }
  pose proof (Prim2SF_valid hi) as Hvhi. pose proof (Prim2SF_valid lo) as Hvlo.
  pose proof Hle as Hle'. rewrite leb_spec in Hle'.
  assert (Hr : Prim2SF (PrimFloat.sub hi lo) = SFsub prec emax (Prim2SF hi) (Prim2SF lo)) by apply sub_spec.
  rewrite Hhi in *.
  pose proof (SFsub_nonneg m e (Prim2SF lo) false Hvhi Hvlo Hflo Hle') as Hr0.
  pose proof (SFsub_le m e (Prim2SF lo) Hvhi Hvlo Hflo Hle') as Hr1.
  rewrite <- Hr in Hr0, Hr1.
  split; [eauto|]. split; [assumption|]. split; [assumption|]. split.
  - apply (fnn_between _ (S754_finite false m e)); [assumption | assumption | reflexivity].
  - rewrite leb_spec, Hhi. assumption.
Qed.

Lemma scaled_range (p p' : float) :
  PrimFloat.leb PrimFloat.zero p = true ->
  PrimFloat.leb p p' = true ->
  PrimFloat.leb p' PrimFloat.one = true ->
  fnn (Prim2SF (PrimFloat.mul (PrimFloat.sub hi lo) p))
  /\ fnn (Prim2SF (PrimFloat.mul (PrimFloat.sub hi lo) p'))
  /\ PrimFloat.leb (PrimFloat.mul (PrimFloat.sub hi lo) p) (PrimFloat.mul (PrimFloat.sub hi lo) p') = true
  /\ PrimFloat.leb (PrimFloat.mul (PrimFloat.sub hi lo) p') hi = true.
Proof.
  intros H0 Hpp' H1.
  destruct range_facts as (_ & _ & _ & Hfr & Hrhi).
  pose proof (float_leb_trans _ _ _ H0 Hpp') as H0'.
  pose proof (float_leb_trans _ _ _ Hpp' H1) as H1'.
  rewrite leb_spec in H0, H0', H1, H1', Hpp'.
  rewrite Prim2SF_zero in H0, H0'. rewrite Prim2SF_one in H1, H1'.
  pose proof (fnn_between _ _ H0 H1' fnn_one) as Hfp.
  pose proof (fnn_between _ _ H0' H1 fnn_one) as Hfp'.
  pose proof (Prim2SF_valid (PrimFloat.sub hi lo)) as Hvr.
  pose proof (Prim2SF_valid p) as Hvp. pose proof (Prim2SF_valid p') as Hvp'.
  assert (Hmono : forall a b, valid_binary a = true -> valid_binary b = true -> fnn a -> fnn b -> SFleb a b = true ->
            SFleb (SFmul prec emax (Prim2SF (PrimFloat.sub hi lo)) a) (SFmul prec emax (Prim2SF (PrimFloat.sub hi lo)) b) = true).
  { intros a b Ha Hb Hfa Hfb Hab. rewrite (SFmul_comm _ a), (SFmul_comm _ b).
    apply SFmul_mono_fnn; assumption. }
  assert (Hzero : SFmul prec emax (Prim2SF (PrimFloat.sub hi lo)) (S754_zero false) = S754_zero (SFsign (Prim2SF (PrimFloat.sub hi lo)))
                  \/ False).
  { left. destruct (Prim2SF (PrimFloat.sub hi lo)) as [s | s | | s m e]; cbn [fnn] in Hfr; try contradiction;
      cbn [SFmul SFsign]; rewrite xorb_false_r; reflexivity. }
  destruct Hzero as [Hzero | []].
  assert (Hone : SFmul prec emax (Prim2SF (PrimFloat.sub hi lo)) SFone = Prim2SF (PrimFloat.sub hi lo)) by (apply SFmul_one; assumption).
  pose proof (Hmono (S754_zero false) (Prim2SF p) eq_refl Hvp I Hfp H0) as Hlo. rewrite Hzero in Hlo.
  pose proof (Hmono _ _ Hvp Hvp' Hfp Hfp' Hpp') as Hmid.
  pose proof (Hmono (Prim2SF p') SFone Hvp' eq_refl Hfp' fnn_one H1) as Hup. rewrite Hone in Hup.
  assert (Hlo' : SFleb (S754_zero false) (SFmul prec emax (Prim2SF (PrimFloat.sub hi lo)) (Prim2SF p)) = true).
  { eapply SFleb_trans; [|exact Hlo]. reflexivity. }
  rewrite !leb_spec, !mul_spec. unfold SF64mul.
  assert (Hfy' : fnn (SFmul prec emax (Prim2SF (PrimFloat.sub hi lo)) (Prim2SF p'))).
  { apply (fnn_between _ (Prim2SF (PrimFloat.sub hi lo))); [|assumption|assumption].
    eapply SFleb_trans; [exact Hlo' | exact Hmid]. }
  split; [|split; [assumption|split; [assumption|]]].
  - apply (fnn_between _ (SFmul prec emax (Prim2SF (PrimFloat.sub hi lo)) (Prim2SF p'))); assumption.
  - eapply SFleb_trans; [exact Hup|]. rewrite <- leb_spec. assumption.
Qed.

(** A larger weight in [0, 1] never gives a higher value, and every value
    lies between 0 and [hi]. *)
Lemma lightness_order (p p' : float) :
  PrimFloat.leb PrimFloat.zero p = true ->
  PrimFloat.leb p p' = true ->
  PrimFloat.leb p' PrimFloat.one = true ->
  PrimFloat.leb (PrimFloat.sub hi (PrimFloat.mul (PrimFloat.sub hi lo) p')) (PrimFloat.sub hi (PrimFloat.mul (PrimFloat.sub hi lo) p)) = true
  /\ PrimFloat.leb PrimFloat.zero (PrimFloat.sub hi (PrimFloat.mul (PrimFloat.sub hi lo) p')) = true
  /\ PrimFloat.leb (PrimFloat.sub hi (PrimFloat.mul (PrimFloat.sub hi lo) p)) hi = true.
Proof.
  intros H0 Hpp' H1.
  destruct (scaled_range p p' H0 Hpp' H1) as (Hfy & Hfy' & Hyy' & Hy'hi).
  destruct range_facts as ((m & e & Hhi) & _).
  pose proof (Prim2SF_valid hi) as Hvhi.
  pose proof (Prim2SF_valid (PrimFloat.mul (PrimFloat.sub hi lo) p)) as Hvy.
  pose proof (Prim2SF_valid (PrimFloat.mul (PrimFloat.sub hi lo) p')) as Hvy'.
  rewrite !leb_spec, !sub_spec, ?Prim2SF_zero. unfold SF64sub.
  rewrite leb_spec in Hyy', Hy'hi.
  rewrite Hhi in *.
  pose proof (SFleb_trans _ _ _ Hyy' Hy'hi) as Hyhi.
  split; [|split].
  - apply SFsub_antitone; assumption.
  - apply SFsub_nonneg; assumption.
  - apply SFsub_le; assumption.
Qed.

(** The weight 0 gives [hi] exactly. *)
Lemma lightness_first (p : float) :
  PrimFloat.eqb p PrimFloat.zero = true -> PrimFloat.sub hi (PrimFloat.mul (PrimFloat.sub hi lo) p) = hi.
Proof.
  intros Hp. destruct range_facts as ((m & e & Hhi) & _ & _ & Hfr & _).
  apply Prim2SF_inj. rewrite sub_spec, mul_spec. unfold SF64sub, SF64mul.
  rewrite eqb_spec, Prim2SF_zero in Hp. rewrite Hhi.
  destruct (Prim2SF p) as [sp | sp | | sp mp ep]; try destruct sp; try discriminate;
    destruct (Prim2SF (PrimFloat.sub hi lo)) as [sr | sr | | sr mr er]; cbn [fnn] in Hfr; try contradiction; reflexivity.
Qed.

End LightnessRange.

(** *** Products with infinities and zeros *)

Lemma SFleb_inf (z : spec_float) : z <> S754_nan -> SFleb z (S754_infinity false) = true.
Proof. destruct z as [s | s | | s m e]; try destruct s; intros H; try reflexivity; congruence. Qed.

Lemma SFmul_not_nan_finite (sx sy : bool) (mx my : positive) (ex ey : Z) :
  valid_binary (S754_finite sx mx ex) = true -> valid_binary (S754_finite sy my ey) = true ->
  SFmul prec emax (S754_finite sx mx ex) (S754_finite sy my ey) <> S754_nan.
Proof.
  intros Hx Hy. rewrite SFmul_finite by assumption.
  apply result_sign. apply norm_rounded_nonneg. eapply mul_shift_ok; eassumption.
Qed.

(** Multiplication keeps the order of values that are not negative,
    infinities included, whenever neither product is NaN. *)
Lemma SFmul_mono_nn (x y k : spec_float) :
  valid_binary x = true -> valid_binary y = true -> valid_binary k = true ->
  nn x -> nn y -> nn k ->
  SFleb x y = true ->
  SFmul prec emax x k <> S754_nan -> SFmul prec emax y k <> S754_nan ->
  SFleb (SFmul prec emax x k) (SFmul prec emax y k) = true.
Proof.
  intros Hvx Hvy Hvk [Hnx Hsx] [Hny Hsy] [Hnk Hsk] Hle Hxk Hyk.
  destruct k as [sk | sk | | sk mk ek]; cbn [SFsign] in Hsk; try congruence; subst sk.
  - destruct x as [sx | sx | | sx mx ex], y as [sy | sy | | sy my ey]; cbn [SFsign SFmul] in *;
      try congruence; subst; reflexivity.
  - destruct x as [sx | sx | | sx mx ex], y as [sy | sy | | sy my ey]; cbn [SFsign SFmul] in *;
      try congruence; subst; reflexivity.
  - destruct y as [sy | sy | | sy my ey]; cbn [SFsign] in Hsy; try congruence; subst sy.
    + destruct x as [sx | sx | | sx mx ex]; cbn [SFsign] in Hsx; try congruence; subst sx;
        try discriminate. reflexivity.
    + cbn [SFmul xorb]. apply SFleb_inf. assumption.
    + destruct x as [sx | sx | | sx mx ex]; cbn [SFsign] in Hsx; try congruence; subst sx;
        try discriminate; apply SFmul_mono_fnn; try assumption; reflexivity.
Qed.

Lemma SFabs_nn (x : spec_float) : x <> S754_nan -> nn (SFabs x).
Proof. destruct x; intros H; split; cbn; congruence. Qed.

Lemma SFabs_nan (x : spec_float) : SFabs x = S754_nan <-> x = S754_nan.
Proof. destruct x; cbn; split; congruence. Qed.

Lemma SFmin_le (m : positive) (e : Z) :
  valid_binary (S754_finite false m e) = true -> SFleb SFmin (S754_finite false m e) = true.
Proof.
  intros Hv. apply (SFleb_val (-1074)); [lia | reflexivity | assumption | reflexivity | reflexivity |].
  apply valid_finite_canon in Hv as ((He & _ & _) & _ & _).
  cbn [SFval SFmin]. pose proof (pow2_pos (e - -1074) ltac:(lia)). change (2 ^ (-1074 - -1074)) with 1. nia.
Qed.

Lemma SFis_zero_true (x : spec_float) : SFis_zero x = true -> exists s, x = S754_zero s.
Proof.
  unfold SFis_zero. destruct x as [s | s | | s m e]; try destruct s; try discriminate; eauto.
Qed.

Lemma SFis_zero_false (x : spec_float) :
  SFis_zero x = false -> forall s, x <> S754_zero s.
Proof. unfold SFis_zero. destruct x; cbn; congruence. Qed.

Lemma SFis_zero_abs (x : spec_float) : SFis_zero (SFabs x) = SFis_zero x.
Proof. destruct x as [s | s | | s m e]; try destruct s; reflexivity. Qed.

Lemma SFmul_nan_l (x y : spec_float) : SFmul prec emax x y <> S754_nan -> x <> S754_nan.
Proof. intros H ->. apply H. reflexivity. Qed.

Lemma SFmul_nan_r (x y : spec_float) : SFmul prec emax x y <> S754_nan -> y <> S754_nan.
Proof. intros H ->. apply H. destruct x; reflexivity. Qed.

Lemma SFleb_zero_zero (s s' : bool) : SFleb (S754_zero s) (S754_zero s') = true.
Proof. reflexivity. Qed.

Lemma SFleb_not_zero (x y : spec_float) :
  nn x -> nn y -> SFleb x y = true -> SFis_zero x = false -> SFis_zero y = false.
Proof.
  intros [Hnx Hsx] [Hny Hsy].
  destruct x as [sx | sx | | sx mx ex], y as [sy | sy | | sy my ey]; cbn [SFsign] in *; try congruence;
    subst; cbn; congruence.
Qed.

(** *** The unclamped chroma under two multipliers *)

Section Multipliers.

Variables K K' : spec_float.
Hypothesis HK : exists m e, K = S754_finite false m e.
Hypothesis HK' : exists m e, K' = S754_finite false m e.
Hypothesis HvK : valid_binary K = true.
Hypothesis HvK' : valid_binary K' = true.
Hypothesis HKK' : SFleb K K' = true.

Lemma scaled_abs (C : spec_float) :
  valid_binary C = true ->
  SFabs (SFmul prec emax C K) = SFmul prec emax (SFabs C) K
  /\ SFabs (SFmul prec emax C K') = SFmul prec emax (SFabs C) K'
  /\ (C <> S754_nan ->
      SFmul prec emax C K <> S754_nan /\ SFmul prec emax C K' <> S754_nan
      /\ SFsign (SFmul prec emax C K) = SFsign C
      /\ SFsign (SFmul prec emax C K') = SFsign C
      /\ SFleb (SFmul prec emax (SFabs C) K) (SFmul prec emax (SFabs C) K') = true).
Proof.
  intros HvC. destruct HK as (m & e & EK), HK' as (m' & e' & EK').
  assert (HaK : SFabs K = K) by (rewrite EK; reflexivity).
  assert (HaK' : SFabs K' = K') by (rewrite EK'; reflexivity).
  split; [rewrite SFmul_abs, HaK by assumption; reflexivity|].
  split; [rewrite SFmul_abs, HaK' by assumption; reflexivity|].
  intros HnC.
  assert (Hn : SFmul prec emax C K <> S754_nan).
  { rewrite EK in *. destruct C as [s | s | | s mc ec]; try (cbn; congruence).
    apply SFmul_not_nan_finite; assumption. }
  assert (Hn' : SFmul prec emax C K' <> S754_nan).
  { rewrite EK' in *. destruct C as [s | s | | s mc ec]; try (cbn; congruence).
    apply SFmul_not_nan_finite; assumption. }
  split; [assumption|]. split; [assumption|].
  split; [rewrite SFmul_sign by assumption; rewrite EK; cbn [SFsign]; apply xorb_false_r|].
  split; [rewrite SFmul_sign by assumption; rewrite EK'; cbn [SFsign]; apply xorb_false_r|].
  rewrite (SFmul_comm (SFabs C) K), (SFmul_comm (SFabs C) K').
  apply SFmul_mono_nn; try assumption.
  - apply SFabs_valid; assumption.
  - rewrite EK. split; [discriminate | reflexivity].
  - rewrite EK'. split; [discriminate | reflexivity].
  - apply SFabs_nn; assumption.
  - rewrite (SFmul_comm K), <- HaK at 1. rewrite <- SFmul_abs by assumption. rewrite SFabs_nan. assumption.
  - rewrite (SFmul_comm K'), <- HaK' at 1. rewrite <- SFmul_abs by assumption. rewrite SFabs_nan. assumption.
Qed.

(** For multipliers [K <= K'] the unclamped chroma under [K] is NaN, or
    that under [K'] is NaN, or the first is at most the second, or neither
    is positive. *)
Lemma raw_order (C S : spec_float) :
  valid_binary C = true -> valid_binary S = true ->
  valid_binary (SFmul prec emax C K) = true -> valid_binary (SFmul prec emax C K') = true ->
  SFraw C K S = S754_nan \/ SFraw C K' S = S754_nan
  \/ SFleb (SFraw C K S) (SFraw C K' S) = true
  \/ (SFleb (SFraw C K S) (S754_zero false) = true /\ SFleb (SFraw C K' S) (S754_zero false) = true).
Proof.
  intros HvC HvS HvW HvW'.
  destruct (scaled_abs C HvC) as (HaW & HaW' & Hrest).
  unfold SFraw. set (W := SFmul prec emax C K) in *. set (W' := SFmul prec emax C K') in *.
  destruct (SFis_zero W) eqn:HzW.
  - (* the smaller product is zero *)
    destruct (SFis_zero_true W HzW) as [sw EW]. rewrite EW. cbn [SFmul SFone]. 
    set (R' := SFmul prec emax W' (if SFis_zero W' then SFone else S)).
    destruct R' as [s | s | | s m e] eqn:ER'.
    + right; right; left. reflexivity.
    + destruct s; [right; right; right; split; reflexivity | right; right; left; reflexivity].
    + right; left. reflexivity.
    + destruct s; [right; right; right; split; reflexivity | right; right; left; reflexivity].
  - destruct C as [sc | sc | | sc mc ec].
    + (* zero chroma *) exfalso. destruct HK as (m & e & EK). unfold W in HzW. rewrite EK in HzW.
      destruct sc; cbn in HzW; discriminate.
    + (* infinite chroma *)
      destruct HK as (m & e & EK), HK' as (m' & e' & EK').
      assert (EW : W = S754_infinity sc) by (unfold W; rewrite EK; cbn; rewrite xorb_false_r; reflexivity).
      assert (EW' : W' = S754_infinity sc) by (unfold W'; rewrite EK'; cbn; rewrite xorb_false_r; reflexivity).
      rewrite EW, EW'. replace (SFis_zero (S754_infinity sc)) with false by (destruct sc; reflexivity).
      destruct (SFmul prec emax (S754_infinity sc) S) eqn:ER; [| | left; reflexivity |];
        right; right; left; apply SFleb_refl; discriminate.
    + left. reflexivity.
    + (* finite chroma *)
      destruct (Hrest ltac:(discriminate)) as (HnW & HnW' & HsW & HsW' & Hle).
      rewrite <- HaW, <- HaW' in Hle.
      assert (HzW' : SFis_zero W' = false).
      { rewrite <- SFis_zero_abs. rewrite <- SFis_zero_abs in HzW.
        exact (SFleb_not_zero _ _ (SFabs_nn W HnW) (SFabs_nn W' HnW') Hle HzW). }
      rewrite HzW'.
      destruct (SFmul prec emax W S) as [s1 | s1 | | s1 m1 e1] eqn:ER; [| | left; reflexivity |].
      all: destruct (SFmul prec emax W' S) as [s2 | s2 | | s2 m2 e2] eqn:ER'; [| | right; left; reflexivity |].
      all: right; right.
      all: assert (Hs : SFsign (SFmul prec emax W S) = SFsign (SFmul prec emax W' S))
             by (rewrite !SFmul_sign by (assumption || rewrite ?ER, ?ER'; discriminate); congruence).
      all: assert (Hmono : SFleb (SFabs (SFmul prec emax W S)) (SFabs (SFmul prec emax W' S)) = true)
             by (rewrite !SFmul_abs by assumption;
                 apply SFmul_mono_nn;
                 [ apply SFabs_valid; assumption | apply SFabs_valid; assumption
                 | apply SFabs_valid; assumption
                 | apply SFabs_nn; assumption | apply SFabs_nn; assumption
                 | apply SFabs_nn; apply (SFmul_nan_r W); rewrite ER; discriminate
                 | assumption
                 | rewrite <- SFmul_abs by assumption; rewrite SFabs_nan, ER; discriminate
                 | rewrite <- SFmul_abs by assumption; rewrite SFabs_nan, ER'; discriminate ]).
      all: rewrite ER, ER' in Hs, Hmono; cbn [SFsign SFabs] in Hs, Hmono; subst s2.
      all: destruct s1; [right; split; reflexivity | left; exact Hmono].
Qed.

End Multipliers.

Lemma fnn_finite_between (x : spec_float) (m : positive) (e : Z) :
  SFleb SFmin x = true -> SFleb x (S754_finite false m e) = true ->
  exists m' e', x = S754_finite false m' e'.
Proof.
  destruct x as [s | s | | s mx ex]; try destruct s; try discriminate; eauto.
Qed.

(** A multiplier in (0, 1] that keeps the smallest positive value positive
    gives NaN exactly when the multiplier 1 does. *)
Lemma raw_nan (C S K : spec_float) :
  valid_binary C = true -> valid_binary S = true -> valid_binary K = true ->
  (exists m e, K = S754_finite false m e) ->
  SFleb K SFone = true ->
  SFleb SFmin (SFmul prec emax SFmin K) = true ->
  valid_binary (SFmul prec emax C K) = true ->
  (SFraw C K S = S754_nan <-> SFraw C SFone S = S754_nan).
Proof.
  intros HvC HvS HvK HK HK1 Hmin HvW.
  unfold SFraw. rewrite (SFmul_one C HvC).
  destruct C as [sc | sc | | sc mc ec].
  - destruct HK as (m & e & ->). destruct sc; cbn; split; congruence.
  - destruct HK as (m & e & ->). cbn [SFmul]. rewrite xorb_false_r.
    replace (SFis_zero (S754_infinity sc)) with false by (destruct sc; reflexivity). reflexivity.
  - split; reflexivity.
  - assert (HW : exists sw mw ew, SFmul prec emax (S754_finite sc mc ec) K = S754_finite sw mw ew).
    { destruct (scaled_abs K SFone HK ltac:(unfold SFone; eauto) HvK eq_refl HK1 (S754_finite sc mc ec) HvC)
        as (HaW & _ & _).
      cbn [SFabs] in HaW.
      assert (Hvc : valid_binary (S754_finite false mc ec) = true) by exact HvC.
      assert (Hlo : SFleb SFmin (SFmul prec emax (S754_finite false mc ec) K) = true).
      { eapply SFleb_trans; [exact Hmin|].
        destruct HK as (m & e & EK). rewrite EK in *.
        apply SFmul_mono_fnn; try assumption; try reflexivity. apply SFmin_le. assumption. }
      assert (Hhi : SFleb (SFmul prec emax (S754_finite false mc ec) K) (S754_finite false mc ec) = true).
      { rewrite <- (SFmul_one (S754_finite false mc ec) Hvc) at 2.
        rewrite (SFmul_comm _ K), (SFmul_comm _ SFone).
        destruct HK as (m & e & EK). rewrite EK in *.
        apply SFmul_mono_fnn; try assumption; reflexivity. }
      destruct (fnn_finite_between _ mc ec Hlo Hhi) as (m' & e' & E').
      rewrite <- HaW in E'.
      destruct (SFmul prec emax (S754_finite sc mc ec) K) as [s | s | | s mw ew]; try discriminate. eauto. }
    destruct HW as (sw & mw & ew & EW). rewrite EW in *.
    replace (SFis_zero (S754_finite sw mw ew)) with false by (destruct sw; reflexivity).
    replace (SFis_zero (S754_finite sc mc ec)) with false by (destruct sc; reflexivity).
    destruct S as [ss | ss | | ss ms es]; cbn [SFmul]; try (split; congruence).
    pose proof (SFmul_not_nan_finite sw ss mw ms ew es HvW HvS) as H1.
    pose proof (SFmul_not_nan_finite sc ss mc ms ec es HvC HvS) as H2.
    cbn [SFmul] in H1, H2. split; intros H; contradiction.
Qed.

(** *** NaN and comparisons *)

(** Every binary64 value but NaN compares equal to itself. *)
Lemma SFcompare_refl (x : spec_float) : x <> S754_nan -> SFcompare x x = Some Eq.
Proof.
  intros H. rewrite SFcompare_key by assumption. f_equal.
  destruct (SFkey x) as [[a b] d]. unfold lex3. cbn [fst snd]. rewrite !Z.compare_refl. reflexivity.
Qed.

Lemma is_nan_spec (x : float) : PrimFloat.is_nan x = true <-> Prim2SF x = S754_nan.
Proof.
  unfold PrimFloat.is_nan. rewrite eqb_spec. unfold SFeqb. split.
  - intros H. destruct (Prim2SF x) eqn:E; try reflexivity;
      rewrite SFcompare_refl in H by discriminate; discriminate.
  - intros ->. reflexivity.
Qed.

Lemma is_nan_false (x : float) : PrimFloat.is_nan x = false <-> Prim2SF x <> S754_nan.
Proof.
  rewrite <- is_nan_spec. destruct (PrimFloat.is_nan x); split; congruence.
Qed.

Lemma float_ltb_total (x y : float) :
  PrimFloat.is_nan x = false -> PrimFloat.is_nan y = false ->
  PrimFloat.ltb x y = negb (PrimFloat.leb y x).
Proof.
  rewrite !is_nan_false, ltb_spec, leb_spec. intros Hx Hy.
  destruct (SFltb_leb (Prim2SF x) (Prim2SF y)) as [H | [H | H]]; congruence.
Qed.

Lemma float_leb_not_nan (x y : float) :
  PrimFloat.leb x y = true -> PrimFloat.is_nan x = false /\ PrimFloat.is_nan y = false.
Proof.
  rewrite leb_spec, !is_nan_false. apply SFleb_not_nan.
Qed.

Lemma float_ltb_not_nan (x y : float) :
  PrimFloat.ltb x y = true -> PrimFloat.is_nan x = false /\ PrimFloat.is_nan y = false.
Proof. intros H. apply float_leb_not_nan. apply float_ltb_leb. assumption. Qed.

Lemma float_leb_refl (x : float) : PrimFloat.is_nan x = false -> PrimFloat.leb x x = true.
Proof. rewrite is_nan_false, leb_spec. apply SFleb_refl. Qed.

Lemma float_ltb_nan_l (x y : float) : PrimFloat.is_nan x = true -> PrimFloat.ltb x y = false.
Proof. rewrite is_nan_spec, ltb_spec. intros ->. reflexivity. Qed.

Lemma float_ltb_nan_r (x y : float) : PrimFloat.is_nan y = true -> PrimFloat.ltb x y = false.
Proof. rewrite is_nan_spec, ltb_spec. intros ->. unfold SFltb. destruct (Prim2SF x); reflexivity. Qed.

(** *** The unclamped chroma on primitive floats *)

Lemma float_positive_finite (k k' : float) :
  PrimFloat.ltb PrimFloat.zero k = true ->
  PrimFloat.leb k k' = true ->
  PrimFloat.ltb k' PrimFloat.infinity = true ->
  (exists m e, Prim2SF k = S754_finite false m e)
  /\ (exists m e, Prim2SF k' = S754_finite false m e).
Proof.
  rewrite !ltb_spec, leb_spec.
  change (Prim2SF PrimFloat.zero) with (S754_zero false).
  change (Prim2SF PrimFloat.infinity) with (S754_infinity false).
  destruct (Prim2SF k) as [s | s | | s m e]; try destruct s; try discriminate;
    destruct (Prim2SF k') as [s' | s' | | s' m' e']; try destruct s'; intros H1 H2 H3;
    try discriminate; split; eauto.
Qed.

Lemma raw_spec (c k s : float) :
  Prim2SF (PrimFloat.mul (PrimFloat.mul c k)
             (if PrimFloat.eqb (PrimFloat.mul c k) PrimFloat.zero then PrimFloat.one else s))
  = SFraw (Prim2SF c) (Prim2SF k) (Prim2SF s).
Proof.
  unfold SFraw. rewrite mul_spec, eqb_spec, mul_spec. unfold SF64mul.
  change (Prim2SF PrimFloat.zero) with (S754_zero false). fold (SFis_zero (SFmul prec emax (Prim2SF c) (Prim2SF k))).
  destruct (SFis_zero (SFmul prec emax (Prim2SF c) (Prim2SF k))); reflexivity.
Qed.

(** *** Finite products *)

Lemma is_finite_spec (x : float) : PrimFloat.is_finite x = true -> SFfinite (Prim2SF x).
Proof.
  unfold PrimFloat.is_finite, PrimFloat.is_infinity. rewrite negb_true_iff, orb_false_iff.
  intros [Hnan Hinf]. apply is_nan_false in Hnan.
  rewrite eqb_spec, abs_spec in Hinf. change (Prim2SF PrimFloat.infinity) with (S754_infinity false) in Hinf.
  destruct (Prim2SF x) as [s | s | | s m e]; cbn [SFfinite]; try exact I; try congruence.
  discriminate.
Qed.

Lemma fnn_finite (x : spec_float) : fnn x -> SFfinite x.
Proof. destruct x; cbn; auto. Qed.

Lemma SFmul_finite_not_nan (x y : spec_float) :
  valid_binary x = true -> valid_binary y = true -> SFfinite x -> SFfinite y ->
  SFmul prec emax x y <> S754_nan.
Proof.
  intros Hvx Hvy Hx Hy.
  destruct x as [sx | sx | | sx mx ex], y as [sy | sy | | sy my ey]; cbn [SFfinite] in *;
    try contradiction; try (cbn; discriminate).
  apply SFmul_not_nan_finite; assumption.
Qed.

Lemma fnn_mul_le (x y b : spec_float) :
  valid_binary x = true -> valid_binary y = true -> valid_binary b = true ->
  fnn x -> fnn y -> fnn b -> SFleb y b = true ->
  SFleb (S754_zero false) (SFmul prec emax x y) = true
  /\ SFleb (SFmul prec emax x y) (SFmul prec emax x b) = true.
Proof.
  intros Hvx Hvy Hvb Hx Hy Hb Hle. split.
  - assert (H0 : SFleb (SFmul prec emax x (S754_zero false)) (SFmul prec emax x y) = true).
    { rewrite (SFmul_comm x _), (SFmul_comm x y).
      apply SFmul_mono_fnn; try assumption; try reflexivity. apply fnn_zero_le. assumption. }
    eapply SFleb_trans; [|exact H0].
    destruct x as [sx | sx | | sx mx ex]; cbn [fnn] in Hx; try contradiction; reflexivity.
  - rewrite (SFmul_comm x y), (SFmul_comm x b). apply SFmul_mono_fnn; assumption.
Qed.

(** The chroma scale [4 * L * (1 - L)] of line 87 is finite and not negative
    for a lightness in [0, 1]. *)
Lemma parabola_finite (four L : float) :
  fnn (Prim2SF four) ->
  PrimFloat.leb PrimFloat.zero L = true ->
  PrimFloat.leb L PrimFloat.one = true ->
  fnn (Prim2SF (PrimFloat.mul (PrimFloat.mul four L) (PrimFloat.sub PrimFloat.one L))).
Proof.
  intros H4 H0 H1. rewrite leb_spec in H0, H1.
  change (Prim2SF PrimFloat.zero) with (S754_zero false) in H0. rewrite Prim2SF_one in H1.
  pose proof (fnn_between _ _ H0 H1 fnn_one) as HL.
  pose proof (Prim2SF_valid four) as Hv4. pose proof (Prim2SF_valid L) as HvL.
  (* 4 * L *)
  destruct (fnn_mul_le (Prim2SF four) (Prim2SF L) SFone Hv4 HvL eq_refl H4 HL fnn_one H1) as [Ha0 Ha1].
  rewrite (SFmul_one _ Hv4) in Ha1.
  pose proof (fnn_between _ _ Ha0 Ha1 H4) as Ha. rewrite <- mul_spec in Ha, Ha0, Ha1.
  (* 1 - L *)
  assert (Hb0 : SFleb (S754_zero false) (Prim2SF (PrimFloat.sub PrimFloat.one L)) = true).
  { rewrite sub_spec, Prim2SF_one. apply SFsub_nonneg; try assumption; reflexivity. }
  assert (Hb1 : SFleb (Prim2SF (PrimFloat.sub PrimFloat.one L)) SFone = true).
  { rewrite sub_spec, Prim2SF_one. apply SFsub_le; try assumption; reflexivity. }
  pose proof (fnn_between _ _ Hb0 Hb1 fnn_one) as Hb.
  (* the product *)
  destruct (fnn_mul_le _ _ SFone (Prim2SF_valid (PrimFloat.mul four L))
              (Prim2SF_valid (PrimFloat.sub PrimFloat.one L)) eq_refl Ha Hb fnn_one Hb1) as [Hc0 Hc1].
  rewrite (SFmul_one _ (Prim2SF_valid _)) in Hc1.
  rewrite mul_spec. apply (fnn_between _ (Prim2SF (PrimFloat.mul four L))); assumption.
Qed.

(** A finite working chroma times a finite chroma scale is not NaN. *)
Lemma raw_not_nan (w t : float) :
  PrimFloat.is_finite w = true -> fnn (Prim2SF t) ->
  PrimFloat.is_nan (PrimFloat.mul w (if PrimFloat.eqb w PrimFloat.zero then PrimFloat.one else t)) = false.
Proof.
  intros Hw Ht. apply is_nan_false. rewrite mul_spec.
  apply SFmul_finite_not_nan; try apply Prim2SF_valid.
  - apply is_finite_spec. assumption.
  - destruct (PrimFloat.eqb w PrimFloat.zero); [exact I | apply fnn_finite; assumption].
Qed.

(** ** Decimal literals as real numbers *)

Lemma Rltb_true (x y : R) : Rltb x y = true <-> (x < y)%R.
Proof. unfold Rltb. destruct (Rlt_dec x y); split; intros; auto; discriminate. Qed.

Lemma Q2R_decimal (n : Z) (d : positive) : Q2R (n # d) = (IZR n / IZR (Zpos d))%R.
Proof. reflexivity. Qed.

(** ** Claims read in binary64 *)

Section Binary64.

Variable Math_pow : float -> float -> float.

Let doubles : Number float := Float64 Math_pow.
#[local] Existing Instance doubles.

Local Open Scope js_scope.

(** The two binary64 values that are [=== 0]. *)
Lemma float_eqb_zero (x : float) :
  PrimFloat.eqb x PrimFloat.zero = true ->
  x = PrimFloat.zero \/ x = PrimFloat.neg_zero.
Proof.
  intros H. rewrite eqb_spec in H. rewrite <- (SF2Prim_Prim2SF x).
  destruct (Prim2SF x) as [s | s | | s m e].
  - destruct s; [right | left]; reflexivity.
  - destruct s; vm_compute in H; discriminate.
  - vm_compute in H; discriminate.
  - destruct s; vm_compute in H; discriminate.
Qed.

(** A zero chroma, of either sign, is shaded to a zero chroma at every
    lightness, NaN included. *)
Lemma shadeColor_achromatic (v : Variant) (lch : LCH float) (lightness : float) :
  c lch = PrimFloat.zero \/ c lch = PrimFloat.neg_zero ->
  (c (shadeColor (workingColor v lch) lightness) === lit 0) = true.
Proof.
  destruct lch as [l0 c0 h0]. cbn [c]. intros [-> | ->]; destruct v; reflexivity.
Qed.

(** C4: when the parsed chroma is 0, every color handed to [formatCSS], that
    is every intermediate shaded color, has chroma 0, for every variant, scale
    and tone. *)
Theorem achromatic_input_stays_achromatic
  (lib : Collaborators float) (input : JsValue) (options : SwatchOptions float)
  (lch color : LCH float) (fmt : ColorType) :
  parseCSS lib input "oklch"%string = Some lch ->
  (c lch === lit 0) = true ->
  In (CallFormatCSS color fmt) (calls (swatch lib input options)) ->
  (c color === lit 0) = true.
Proof.
  intros Hparse Hzero Hin. apply swatch_formatted_colors in Hin.
  destruct Hin as (lch' & tone & lightness & Hparse' & _ & _ & ->).
  rewrite Hparse in Hparse'. inversion Hparse'; subst lch'.
  apply shadeColor_achromatic. apply float_eqb_zero. exact Hzero.
Qed.

(** Away from NaN, [x < y] false means [y <= x]. *)
Lemma float_ltb_false_leb (x y : float) :
  PrimFloat.is_nan x = false ->
  PrimFloat.is_nan y = false ->
  PrimFloat.ltb x y = false ->
  PrimFloat.leb y x = true.
Proof.
  unfold PrimFloat.is_nan. rewrite !negb_false_iff.
  rewrite !eqb_spec, ltb_spec, leb_spec.
  unfold SFeqb, SFltb, SFleb.
  rewrite (SFcompare_antisym (Prim2SF x) (Prim2SF y)).
  intros Hx Hy.
  assert (Hxy : SFcompare (Prim2SF x) (Prim2SF y) <> None).
  { destruct (Prim2SF x), (Prim2SF y); cbn in *; congruence. }
  destruct (SFcompare (Prim2SF x) (Prim2SF y)) as [[ | | ] |]; cbn; congruence.
Qed.



(** With the default options the last lightness is
    [0.97 - (0.97 - 0.2) * 1], whatever [**] does away from the base 1. *)
Lemma default_last_lightness :
  Math_pow PrimFloat.one (float_lit 1.5) = PrimFloat.one ->
  obj_get 950 (palette (destructure (SwatchOptions.empty float))) =
  Some (PrimFloat.sub (float_lit 0.97)
          (PrimFloat.mul (PrimFloat.sub (float_lit 0.97) (float_lit 0.2))
             PrimFloat.one)).
Proof.
  intros H.
  rewrite (palette_dynamic_lookup (destructure (SwatchOptions.empty float)) 10)
    by (reflexivity || (cbn; lia)).
  unfold lightnessOf. cbn [jsub jmul jdiv jpow lit doubles Float64].
  cbn [maxLightness minLightness lightnessFactor swatchSteps destructure
       SwatchOptions.empty SwatchOptions.maxLightness SwatchOptions.minLightness
       SwatchOptions.lightnessFactor SwatchOptions.swatchSteps default_of].
  replace (PrimFloat.div (float_lit (inject_Z 10)) (float_lit (inject_Z (11 - 1))))
    with PrimFloat.one by reflexivity.
  change (Math_pow PrimFloat.one (lit 1.5))
    with (Math_pow PrimFloat.one (float_lit 1.5)).
  rewrite H. reflexivity.
Qed.

(** *** Literals *)



(** *** The clamp of line 90 *)

Section Clamp.

Variables lo hi : float.
Hypothesis Hlohi : PrimFloat.leb lo hi = true.

(** [clamp] returns NaN for NaN and for nothing else. *)
Lemma clamp_nan (x : float) :
  PrimFloat.is_nan (clamp x lo hi) = PrimFloat.is_nan x.
Proof.
  destruct (float_leb_not_nan _ _ Hlohi) as [Hlo Hhi].
  unfold clamp. cbn [jlt doubles Float64].
  destruct (PrimFloat.ltb x lo) eqn:H1.
  - destruct (float_ltb_not_nan _ _ H1) as [Hx _]. congruence.
  - destruct (PrimFloat.ltb hi x) eqn:H2; [|reflexivity].
    destruct (float_ltb_not_nan _ _ H2) as [_ Hx]. congruence.
Qed.

Lemma clamp_between (x : float) :
  PrimFloat.is_nan x = false ->
  PrimFloat.leb lo (clamp x lo hi) = true /\ PrimFloat.leb (clamp x lo hi) hi = true.
Proof.
  intros Hx. destruct (float_leb_not_nan _ _ Hlohi) as [Hlo Hhi].
  unfold clamp. cbn [jlt doubles Float64].
  destruct (PrimFloat.ltb x lo) eqn:H1; [split; [apply float_leb_refl|]; assumption|].
  destruct (PrimFloat.ltb hi x) eqn:H2; [split; [|apply float_leb_refl]; assumption|].
  rewrite float_ltb_total in H1, H2 by assumption.
  apply negb_false_iff in H1, H2. split; assumption.
Qed.

Lemma clamp_mono (x y : float) :
  PrimFloat.leb x y = true -> PrimFloat.leb (clamp x lo hi) (clamp y lo hi) = true.
Proof.
  intros Hxy. destruct (float_leb_not_nan _ _ Hxy) as [Hx Hy].
  destruct (float_leb_not_nan _ _ Hlohi) as [Hlo Hhi].
  destruct (clamp_between y Hy) as [Hy1 Hy2].
  destruct (clamp_between x Hx) as [Hx1 Hx2].
  unfold clamp in *. cbn [jlt doubles Float64] in *.
  destruct (PrimFloat.ltb x lo) eqn:H1; [assumption|].
  destruct (PrimFloat.ltb hi x) eqn:H2.
  - assert (H3 : PrimFloat.ltb hi y = true).
    { rewrite float_ltb_total in * by assumption. apply negb_true_iff in H2. apply negb_true_iff.
      destruct (PrimFloat.leb y hi) eqn:H; [|reflexivity].
      rewrite (float_leb_trans _ _ _ Hxy H) in H2. discriminate. }
    rewrite H3. destruct (PrimFloat.ltb y lo) eqn:H4; [|apply float_leb_refl; assumption].
    exfalso. rewrite float_ltb_total in * by assumption.
    apply negb_true_iff in H2, H3, H4. apply negb_false_iff in H1.
    rewrite (float_leb_trans _ _ _ H1 Hxy) in H4. discriminate.
  - destruct (PrimFloat.ltb y lo) eqn:H4.
    + exfalso. rewrite float_ltb_total in * by assumption.
      apply negb_true_iff in H4. apply negb_false_iff in H1.
      rewrite (float_leb_trans _ _ _ H1 Hxy) in H4. discriminate.
    + destruct (PrimFloat.ltb hi y) eqn:H5; assumption.
Qed.

End Clamp.

(** *** The shaded chroma *)

(** The chroma [shadeColor] gives the working color of a variant: the
    product of lines 135 and 86-89, clamped on line 90. *)
Lemma shaded_chroma_eq (v : Variant) (lch : LCH float) (lightness : float) :
  c (shadeColor (workingColor v lch) lightness) =
  clamp (PrimFloat.mul (PrimFloat.mul (c lch) (chromaScale v))
           (if PrimFloat.eqb (PrimFloat.mul (c lch) (chromaScale v)) PrimFloat.zero
            then PrimFloat.one
            else PrimFloat.mul (PrimFloat.mul (float_lit 4) lightness)
                   (PrimFloat.sub PrimFloat.one lightness)))
    PrimFloat.zero (float_lit 0.4).
Proof. destruct v; reflexivity. Qed.

Lemma chroma_range_ok : PrimFloat.leb PrimFloat.zero (float_lit 0.4) = true.
Proof. reflexivity. Qed.

(** A smaller positive multiplier never gives a higher shaded chroma. *)
Lemma scaled_chroma_order (k k' chroma s : float) :
  PrimFloat.ltb PrimFloat.zero k = true ->
  PrimFloat.leb k k' = true ->
  PrimFloat.ltb k' PrimFloat.infinity = true ->
  PrimFloat.ltb
    (clamp (PrimFloat.mul (PrimFloat.mul chroma k')
              (if PrimFloat.eqb (PrimFloat.mul chroma k') PrimFloat.zero
               then PrimFloat.one else s))
       PrimFloat.zero (float_lit 0.4))
    (clamp (PrimFloat.mul (PrimFloat.mul chroma k)
              (if PrimFloat.eqb (PrimFloat.mul chroma k) PrimFloat.zero
               then PrimFloat.one else s))
       PrimFloat.zero (float_lit 0.4)) = false.
Proof.
  intros H0 Hkk' Hinf.
  destruct (float_positive_finite k k' H0 Hkk' Hinf) as [HK HK'].
  pose proof Hkk' as HKK'. rewrite leb_spec in HKK'.
  pose proof (raw_order (Prim2SF k) (Prim2SF k') HK HK' (Prim2SF_valid k) (Prim2SF_valid k') HKK'
                (Prim2SF chroma) (Prim2SF s) (Prim2SF_valid chroma) (Prim2SF_valid s)) as Hraw.
  rewrite <- !mul_spec in Hraw. specialize (Hraw (Prim2SF_valid _) (Prim2SF_valid _)).
  set (r := PrimFloat.mul (PrimFloat.mul chroma k) _).
  set (r' := PrimFloat.mul (PrimFloat.mul chroma k') _).
  assert (Er : Prim2SF r = SFraw (Prim2SF chroma) (Prim2SF k) (Prim2SF s)) by apply raw_spec.
  assert (Er' : Prim2SF r' = SFraw (Prim2SF chroma) (Prim2SF k') (Prim2SF s)) by apply raw_spec.
  rewrite <- Er, <- Er' in Hraw.
  destruct Hraw as [H | [H | [H | [H1 H2]]]].
  - apply float_ltb_nan_r. rewrite clamp_nan by exact chroma_range_ok.
    apply is_nan_spec. assumption.
  - apply float_ltb_nan_l. rewrite clamp_nan by exact chroma_range_ok.
    apply is_nan_spec. assumption.
  - apply float_leb_ltb. apply clamp_mono; [exact chroma_range_ok|].
    rewrite leb_spec. assumption.
  - apply float_leb_ltb.
    change (S754_zero false) with (Prim2SF PrimFloat.zero) in H1, H2.
    rewrite <- leb_spec in H1, H2.
    apply (float_leb_trans _ PrimFloat.zero).
    + exact (clamp_mono PrimFloat.zero (float_lit 0.4) chroma_range_ok r PrimFloat.zero H1).
    + apply clamp_between; [exact chroma_range_ok|]. apply (float_leb_not_nan _ _ H2).
Qed.

(** A multiplier in (0, 1] that does not take the smallest positive value to
    zero gives NaN exactly when the multiplier 1 does. *)
Lemma scaled_chroma_nan (k chroma s : float) :
  PrimFloat.ltb PrimFloat.zero k = true ->
  PrimFloat.leb k PrimFloat.one = true ->
  SFleb SFmin (SFmul prec emax SFmin (Prim2SF k)) = true ->
  PrimFloat.is_nan
    (clamp (PrimFloat.mul (PrimFloat.mul chroma k)
              (if PrimFloat.eqb (PrimFloat.mul chroma k) PrimFloat.zero
               then PrimFloat.one else s))
       PrimFloat.zero (float_lit 0.4))
  = PrimFloat.is_nan
      (clamp (PrimFloat.mul (PrimFloat.mul chroma PrimFloat.one)
                (if PrimFloat.eqb (PrimFloat.mul chroma PrimFloat.one) PrimFloat.zero
                 then PrimFloat.one else s))
         PrimFloat.zero (float_lit 0.4)).
Proof.
  intros H0 Hk1 Hmin.
  destruct (float_positive_finite k PrimFloat.one H0 Hk1 eq_refl) as [HK _].
  pose proof Hk1 as HK1. rewrite leb_spec in HK1.
  pose proof (raw_nan (Prim2SF chroma) (Prim2SF s) (Prim2SF k) (Prim2SF_valid chroma)
                (Prim2SF_valid s) (Prim2SF_valid k) HK HK1 Hmin) as Hraw.
  rewrite <- !mul_spec in Hraw. specialize (Hraw (Prim2SF_valid _)).
  rewrite !clamp_nan by exact chroma_range_ok.
  set (r := PrimFloat.mul (PrimFloat.mul chroma k) _).
  set (r' := PrimFloat.mul (PrimFloat.mul chroma PrimFloat.one) _).
  assert (Er : Prim2SF r = SFraw (Prim2SF chroma) (Prim2SF k) (Prim2SF s)) by apply raw_spec.
  assert (Er' : Prim2SF r' = SFraw (Prim2SF chroma) SFone (Prim2SF s)) by apply raw_spec.
  rewrite <- Er, <- Er' in Hraw. rewrite <- !is_nan_spec in Hraw.
  destruct (PrimFloat.is_nan r), (PrimFloat.is_nan r'); try reflexivity.
  - symmetry. apply Hraw. reflexivity.
  - apply Hraw. reflexivity.
Qed.

(** The multipliers of lines 125-132, in rising order. *)
Lemma chromaScale_order :
  PrimFloat.ltb PrimFloat.zero (chromaScale subtle) = true
  /\ PrimFloat.leb (chromaScale subtle) (chromaScale pastel) = true
  /\ PrimFloat.leb (chromaScale pastel) (chromaScale neutral) = true
  /\ PrimFloat.leb (chromaScale neutral) (chromaScale deep) = true
  /\ PrimFloat.leb (chromaScale deep) (chromaScale base) = true
  /\ PrimFloat.leb (chromaScale base) (chromaScale vibrant) = true
  /\ PrimFloat.ltb (chromaScale vibrant) PrimFloat.infinity = true.
Proof. repeat split. Qed.

(** Of two variants, the one with the smaller multiplier never has the
    higher shaded chroma. *)
Lemma shaded_chroma_order (v v' : Variant) (lch : LCH float) (lightness : float) :
  PrimFloat.leb (chromaScale v) (chromaScale v') = true ->
  PrimFloat.ltb (c (shadeColor (workingColor v' lch) lightness))
                (c (shadeColor (workingColor v lch) lightness)) = false.
Proof.
  intros Hle. rewrite !shaded_chroma_eq.
  apply scaled_chroma_order; [destruct v; reflexivity | exact Hle | destruct v'; reflexivity].
Qed.


(** *** The dynamic table *)

(** The bases [index / (swatchSteps - 1)] of the power rise with the index,
    from 0 to 1. *)
Lemma step_fractions (n i j : Z) :
  n = 11%Z \/ n = 21%Z ->
  (0 <= i <= j)%Z -> (j < n)%Z ->
  PrimFloat.leb PrimFloat.zero (lit (inject_Z i) / lit (inject_Z (n - 1))) = true
  /\ PrimFloat.leb (lit (inject_Z i) / lit (inject_Z (n - 1)))
       (lit (inject_Z j) / lit (inject_Z (n - 1))) = true
  /\ PrimFloat.leb (lit (inject_Z j) / lit (inject_Z (n - 1))) PrimFloat.one = true.
Proof.
  intros Hn Hij Hj.
  set (x := fun k : Z => lit (inject_Z k) / lit (inject_Z (n - 1))).
  change (PrimFloat.leb PrimFloat.zero (x i) = true
          /\ PrimFloat.leb (x i) (x j) = true
          /\ PrimFloat.leb (x j) PrimFloat.one = true).
  assert (Hall :
    forallb (fun a =>
      forallb (fun b =>
        implb (a <=? b)%Z
          (PrimFloat.leb PrimFloat.zero (x a) && PrimFloat.leb (x a) (x b)
           && PrimFloat.leb (x b) PrimFloat.one))
        (indices n)) (indices n) = true).
  { unfold x. destruct Hn as [-> | ->]; vm_compute; reflexivity. }
  rewrite forallb_forall in Hall.
  specialize (Hall i (indices_spec n i ltac:(lia))).
  rewrite forallb_forall in Hall.
  specialize (Hall j (indices_spec n j ltac:(lia))).
  replace (i <=? j)%Z with true in Hall by (symmetry; apply Z.leb_le; lia).
  cbn [implb] in Hall.
  apply andb_true_iff in Hall. destruct Hall as [H12 H3].
  apply andb_true_iff in H12. destruct H12 as [H1 H2]. auto.
Qed.

(** With valid bounds and [**] as [PowRises] takes it, the lightness of a
    step is at most that of every earlier step, and it lies between 0 and
    [maxLightness]. *)
Lemma lightnessOf_order (s : Settings float) (i j : Z) :
  lightnessRangeOk s = true ->
  swatchStepsOk s = true ->
  PowRises Math_pow (lightnessFactor s) ->
  (0 <= i <= j)%Z -> (j < swatchSteps s)%Z ->
  PrimFloat.leb (lightnessOf s j) (lightnessOf s i) = true
  /\ PrimFloat.leb PrimFloat.zero (lightnessOf s j) = true
  /\ PrimFloat.leb (lightnessOf s i) (maxLightness s) = true.
Proof.
  intros Hrange Hsteps (Hzero & Hone & Hrise) Hij Hj.
  assert (Hbounds :
    PrimFloat.ltb (minLightness s) (maxLightness s)
    && PrimFloat.leb (maxLightness s) PrimFloat.one
    && PrimFloat.leb PrimFloat.zero (minLightness s) = true) by exact Hrange.
  destruct (step_fractions (swatchSteps s) i j (swatchStepsOk_cases s Hsteps) Hij Hj)
    as (Hx0 & Hxx & Hx1).
  unfold lightnessOf.
  set (xi := lit (inject_Z i) / lit (inject_Z (swatchSteps s - 1))) in *.
  set (xj := lit (inject_Z j) / lit (inject_Z (swatchSteps s - 1))) in *.
  pose proof (float_leb_trans _ _ _ Hxx Hx1) as Hxi1.
  destruct (float_eqb_leb _ _ Hzero) as [_ Hzero'].
  assert (Hpi : PrimFloat.leb PrimFloat.zero (xi ** lightnessFactor s) = true).
  { apply (float_leb_trans _ _ _ Hzero').
    apply (Hrise PrimFloat.zero xi); [reflexivity | exact Hx0 | exact Hxi1]. }
  assert (Hpij : PrimFloat.leb (xi ** lightnessFactor s) (xj ** lightnessFactor s) = true)
    by (apply (Hrise xi xj); assumption).
  assert (Hpj : PrimFloat.leb (xj ** lightnessFactor s) PrimFloat.one = true).
  { pose proof (Hrise xj PrimFloat.one (float_leb_trans _ _ _ Hx0 Hxx) Hx1 eq_refl)
      as Hup.
    rewrite Hone in Hup. exact Hup. }
  exact (lightness_order _ _ Hbounds _ _ Hpi Hpij Hpj).
Qed.

(** C5, as the code has it: with [scale = 'dynamic'] and valid lightness
    bounds, the lightness at index 0 is [maxLightness] itself whenever
    [0 ** lightnessFactor] is 0; the lightness at the last index is
    [maxLightness - (maxLightness - minLightness)] whenever
    [1 ** lightnessFactor] is 1; and when [x ** lightnessFactor] moreover
    does not fall as [x] rises within [0, 1], the lightness never rises from
    a step to a later one and stays between 0 and [maxLightness]. *)
Theorem dynamic_lightness_ends_and_order (options : SwatchOptions float) :
  let s := destructure options in
  scale s = dynamic ->
  lightnessRangeOk s = true ->
  swatchStepsOk s = true ->
  ((PrimFloat.zero ** lightnessFactor s === lit 0) = true ->
   obj_get (toneOf (swatchSteps s) 0) (palette s) = Some (maxLightness s))
  /\ (PrimFloat.one ** lightnessFactor s = PrimFloat.one ->
      obj_get (toneOf (swatchSteps s) (swatchSteps s - 1)) (palette s) =
      Some (maxLightness s - (maxLightness s - minLightness s)))
  /\ ((PrimFloat.zero ** lightnessFactor s === lit 0) = true ->
      PrimFloat.one ** lightnessFactor s = PrimFloat.one ->
      (forall x y : float,
          (lit 0 <=? x) = true -> (x <=? y) = true -> (y <=? lit 1) = true ->
          (x ** lightnessFactor s <=? y ** lightnessFactor s) = true) ->
      forall i j : Z,
        (0 <= i < j)%Z -> (j < swatchSteps s)%Z ->
        exists li lj,
          obj_get (toneOf (swatchSteps s) i) (palette s) = Some li
          /\ obj_get (toneOf (swatchSteps s) j) (palette s) = Some lj
          /\ (lj <=? li) = true
          /\ (lit 0 <=? lj) = true
          /\ (li <=? maxLightness s) = true).
Proof.
  intros s Hscale Hrange Hsteps.
  assert (Hn : (0 < swatchSteps s)%Z)
    by (destruct (swatchStepsOk_cases s Hsteps) as [-> | ->]; lia).
  assert (Hbounds :
    PrimFloat.ltb (minLightness s) (maxLightness s)
    && PrimFloat.leb (maxLightness s) PrimFloat.one
    && PrimFloat.leb PrimFloat.zero (minLightness s) = true) by exact Hrange.
  assert (Hfirst :
    lit (inject_Z 0) / lit (inject_Z (swatchSteps s - 1)) = PrimFloat.zero)
    by (destruct (swatchStepsOk_cases s Hsteps) as [-> | ->]; reflexivity).
  assert (Hlast :
    lit (inject_Z (swatchSteps s - 1)) / lit (inject_Z (swatchSteps s - 1))
    = PrimFloat.one)
    by (destruct (swatchStepsOk_cases s Hsteps) as [-> | ->]; reflexivity).
  split; [| split].
  - intros Hzero. rewrite palette_dynamic_lookup by (assumption || lia). f_equal.
    unfold lightnessOf. rewrite Hfirst.
    exact (lightness_first _ _ Hbounds _ Hzero).
  - intros Hone. rewrite palette_dynamic_lookup by (assumption || lia). f_equal.
    unfold lightnessOf. rewrite Hlast.
    rewrite Hone. cbn [jsub jmul doubles Float64]. rewrite float_mul_one. reflexivity.
  - intros Hzero Hone Hrise i j Hij Hj.
    exists (lightnessOf s i), (lightnessOf s j).
    rewrite !palette_dynamic_lookup by (assumption || lia).
    split; [reflexivity |]. split; [reflexivity |].
    apply lightnessOf_order; try assumption; [| lia].
    split; [exact Hzero |]. split; [exact Hone | exact Hrise].
Qed.

(** C10, as the code has it: [deep] and [base] share the tone table, and at
    every tone the shaded chroma of [deep] is never higher than that of
    [base]: both are NaN, or both are numbers with that of [deep] lower or
    equal. *)
Theorem deep_chroma_at_most_base :
  (forall (N : Type) (num : Number N) (options : SwatchOptions N),
      palette (destructure (withVariant options deep)) =
      palette (destructure (withVariant options base)))
  /\ (forall (options : SwatchOptions float) (lch : LCH float)
             (tone : Z) (lightness : float),
        let sd := destructure (withVariant options deep) in
        let sb := destructure (withVariant options base) in
        swatchStepsOk sb = true ->
        obj_get tone (palette sb) = Some lightness ->
        exists d b,
          obj_get tone (shades (workingColor deep lch) (palette sd)) = Some d
          /\ obj_get tone (shades (workingColor base lch) (palette sb)) = Some b
          /\ PrimFloat.ltb (c b) (c d) = false
          /\ PrimFloat.is_nan (c d) = PrimFloat.is_nan (c b)
          /\ (PrimFloat.is_nan (c b) = false ->
              PrimFloat.leb (c d) (c b) = true)).
Proof.
  split.
  - intros N num options. apply palette_ignores_variant.
  - intros options lch tone lightness sd sb Hsteps Hget.
    assert (Hpalette : palette sd = palette sb) by reflexivity.
    rewrite Hpalette.
    exists (shadeColor (workingColor deep lch) lightness),
           (shadeColor (workingColor base lch) lightness).
    rewrite !shades_entries by (apply palette_ascending; exact Hsteps).
    rewrite !obj_get_map, Hget. cbn [option_map].
    split; [reflexivity |]. split; [reflexivity |].
    assert (Horder :
      PrimFloat.ltb (c (shadeColor (workingColor base lch) lightness))
                    (c (shadeColor (workingColor deep lch) lightness)) = false)
      by (apply shaded_chroma_order; reflexivity).
    assert (Hnan :
      PrimFloat.is_nan (c (shadeColor (workingColor deep lch) lightness))
      = PrimFloat.is_nan (c (shadeColor (workingColor base lch) lightness))).
    { rewrite !shaded_chroma_eq.
      apply (scaled_chroma_nan (chromaScale deep)); [reflexivity | reflexivity |].
      vm_compute. reflexivity. }
    split; [exact Horder |]. split; [exact Hnan |].
    intros Hnumber. apply float_ltb_false_leb; [exact Hnumber | | exact Horder].
    rewrite Hnan. exact Hnumber.
Qed.

End Binary64.

(** ** Closed instances *)

#[local] Existing Instance sampleFloat64.

Local Open Scope string_scope.

(** The first example of section 8: [swatch("#3b82f6")]. *)
Example swatch_default_hex :
  outcome (@swatch float sampleFloat64 sampleLib (JsString "#3b82f6")
             (SwatchOptions.empty float)) =
  inr (map (fun tone => (tone, "hex")) labels11).
Proof. vm_compute. reflexivity. Qed.

(** The second example of section 8:
    [swatch("oklch(0.6 0.15 250)", { scale: "fixed", swatchSteps: 21 })]. *)
Example swatch_fixed_21_oklch :
  outcome (@swatch float sampleFloat64 sampleLib (JsString "oklch(0.6 0.15 250)")
             {| SwatchOptions.format := None;
                SwatchOptions.lightnessFactor := None;
                SwatchOptions.maxLightness := None;
                SwatchOptions.minLightness := None;
                SwatchOptions.scale := Some fixed;
                SwatchOptions.swatchSteps := Some 21%Z;
                SwatchOptions.variant := None |}) =
  inr (map (fun tone => (tone, "oklch")) labels21).
Proof. vm_compute. reflexivity. Qed.

(** The positional labels of section 4.3: index 0 to 50, index 10 to 950 and
    index * 100 in between for 11 steps; 0, 50, ..., 1000 for 21 steps. *)
Example toneOf_labels :
  map (toneOf 11) (indices 11) = labels11
  /\ map (toneOf 21) (indices 21) = labels21
  /\ map (toneOf 11) [1; 2; 3; 4; 5; 6; 7; 8; 9]%Z
     = map (fun index => index * 100)%Z [1; 2; 3; 4; 5; 6; 7; 8; 9]%Z.
Proof. repeat split. Qed.

(** A decimal literal of the source is the binary64 value nearest to it. *)
Example float_lit_nearest :
  float_lit 0.97 = 0.97%float /\ float_lit 0.2 = 0.2%float
  /\ float_lit 1.5 = 1.5%float /\ float_lit 0.4 = 0.4%float
  /\ float_lit 0.8 = 0.8%float /\ float_lit 1.25 = 1.25%float.
Proof. repeat split. Qed.



Lemma fixed_scale_ignores_lightness_options_witness :
  @swatch float sampleFloat64 sampleLib (JsString "oklch(0.6 0.15 250)")
    (fixedWith None None None) =
  @swatch float sampleFloat64 sampleLib (JsString "oklch(0.6 0.15 250)")
    (fixedWith (Some (float_lit 0.9)) (Some (float_lit 0.1)) (Some (float_lit 3))).
Proof.
  refine (proj1 (@fixed_scale_ignores_lightness_options float sampleFloat64
                   sampleLib _ _ _ _ _ _ _)).
  - repeat split.
  - reflexivity.
  - vm_compute. reflexivity.
  - vm_compute. reflexivity.
Defined.

Lemma swatch_options_check_witness :
  exists message,
    @swatch float sampleFloat64 sampleLib (JsString "#3b82f6")
      (lightnessBounds (float_lit 0.1) (float_lit 0.5)) =
    ([], inl (InvalidOptions message)).
Proof.
  refine (proj1 (@swatch_options_check float sampleFloat64 sampleLib
                   (JsString "#3b82f6")
                   (lightnessBounds (float_lit 0.1) (float_lit 0.5))) _ _).
  - reflexivity.
  - left. vm_compute. reflexivity.
Defined.

(** Against C7 as stated: the empty string with [maxLightness] below
    [minLightness] fails with [InvalidInput], not with [InvalidOptions]. *)
Lemma empty_input_fails_before_options :
  let options := lightnessBounds (float_lit 0.1) (float_lit 0.5) in
  @lightnessRangeOk float sampleFloat64 (destructure options) = false
  /\ @swatch float sampleFloat64 sampleLib (JsString "") options =
     ([], inl InvalidInput).
Proof. split; vm_compute; reflexivity. Qed.

Lemma swatch_rejects_non_string_witness :
  @swatch float sampleFloat64 sampleLib (JsString "") (SwatchOptions.empty float) =
  ([], inl InvalidInput)
  /\ @swatch float sampleFloat64 sampleLib (JsNumber 42) (SwatchOptions.empty float) =
     ([], inl InvalidInput).
Proof.
  split; apply swatch_rejects_non_string; intros s H; inversion H; reflexivity.
Defined.

Lemma achromatic_input_stays_achromatic_witness :
  PrimFloat.eqb
    (c (@shadeColor float sampleFloat64
          (@workingColor float sampleFloat64 base
             {| l := float_lit 0.5; c := float_lit 0; h := float_lit 0 |})
          (float_lit 0.97)))
    (float_lit 0) = true.
Proof.
  apply (@achromatic_input_stays_achromatic pow_sqrt sampleLib
           (JsString "oklch(0.5 0 0)") (SwatchOptions.empty float)
           {| l := float_lit 0.5; c := float_lit 0; h := float_lit 0 |}
           _ "oklch").
  - reflexivity.
  - reflexivity.
  - vm_compute. do 4 right. left. reflexivity.
Defined.
(** Against C5 as stated.  With the default options the last lightness of
    the table is [0.97 - (0.97 - 0.2) * 1], the binary64 value just below
    [0.2]; and with [maxLightness = 1], [minLightness] the binary64 value
    just below 1 and [lightnessFactor = 1], the lightness of tone 100 is 1,
    that of tone 50, so the table does not strictly decrease. *)
Lemma dynamic_lightness_rounds :
  (let s := @destructure float sampleFloat64 (SwatchOptions.empty float) in
   scale s = dynamic
   /\ @lightnessRangeOk float sampleFloat64 s = true
   /\ PrimFloat.ltb PrimFloat.zero (lightnessFactor s) = true
   /\ exists last,
        obj_get (toneOf (swatchSteps s) (swatchSteps s - 1))
          (@palette float sampleFloat64 s) = Some last
        /\ PrimFloat.ltb last (minLightness s) = true
        /\ PrimFloat.eqb last (minLightness s) = false)
  /\ (let s := @destructure float sampleFloat64
                 (lightnessOptions PrimFloat.one (PrimFloat.next_down PrimFloat.one)
                    PrimFloat.one) in
      scale s = dynamic
      /\ @lightnessRangeOk float sampleFloat64 s = true
      /\ PrimFloat.ltb PrimFloat.zero (lightnessFactor s) = true
      /\ exists first second,
           obj_get (toneOf (swatchSteps s) 0) (@palette float sampleFloat64 s)
           = Some first
           /\ obj_get (toneOf (swatchSteps s) 1) (@palette float sampleFloat64 s)
              = Some second
           /\ PrimFloat.ltb second first = false
           /\ PrimFloat.eqb second first = true).
Proof.
  split.
  - repeat split; try (vm_compute; reflexivity).
    eexists. split; [exact (default_last_lightness pow_sqrt eq_refl) |].
    split; vm_compute; reflexivity.
  - repeat split; try (vm_compute; reflexivity).
    do 2 eexists. repeat split; vm_compute; reflexivity.
Qed.

(** Against C10 as stated: for an achromatic input the shaded chroma of
    [deep] is 0 at tone 500, as is that of [base]; it is not lower. *)
Lemma achromatic_deep_chroma_not_lower :
  exists lch d b,
    parseCSS (@sampleLib float sampleFloat64) (JsString "oklch(0.5 0 0)") "oklch"
    = Some lch
    /\ obj_get 500
         (@shades float sampleFloat64 (@workingColor float sampleFloat64 deep lch)
            (@palette float sampleFloat64
               (destructure (withVariant (SwatchOptions.empty float) deep))))
       = Some d
    /\ obj_get 500
         (@shades float sampleFloat64 (@workingColor float sampleFloat64 base lch)
            (@palette float sampleFloat64
               (destructure (withVariant (SwatchOptions.empty float) base))))
       = Some b
    /\ PrimFloat.ltb (c d) (c b) = false.
Proof.
  do 3 eexists. repeat split; vm_compute; reflexivity.
Qed.



(** [pow_sqrt] at the exponent 1 is the identity. *)
Lemma pow_sqrt_rises : PowRises pow_sqrt (float_lit 1).
Proof.
  split; [reflexivity |]. split; [reflexivity |].
  intros x y _ Hxy _. exact Hxy.
Qed.

Lemma dynamic_lightness_ends_and_order_witness :
  let s := @destructure float sampleFloat64 (withFactor (float_lit 1)) in
  obj_get 50 (@palette float sampleFloat64 s) = Some (maxLightness s)
  /\ obj_get 950 (@palette float sampleFloat64 s) =
     Some (PrimFloat.sub (maxLightness s)
             (PrimFloat.sub (maxLightness s) (minLightness s)))
  /\ exists li lj,
       obj_get 300 (@palette float sampleFloat64 s) = Some li
       /\ obj_get 700 (@palette float sampleFloat64 s) = Some lj
       /\ PrimFloat.leb lj li = true.
Proof.
  intros s.
  destruct (dynamic_lightness_ends_and_order pow_sqrt (withFactor (float_lit 1))
              eq_refl eq_refl eq_refl) as (Hfirst & Hlast & Horder).
  split; [exact (Hfirst eq_refl) |]. split; [exact (Hlast eq_refl) |].
  destruct pow_sqrt_rises as (Hzero & Hone & Hrise).
  destruct (Horder Hzero Hone Hrise 3 7 ltac:(lia) ltac:(cbn; lia))
    as (li & lj & Hi & Hj & Hle & _).
  exists li, lj. auto.
Defined.

Lemma deep_chroma_at_most_base_witness :
  let lch := {| l := float_lit 0.6; c := float_lit 0.15; h := float_lit 250 |} in
  exists d b,
    obj_get 500
      (@shades float sampleFloat64 (@workingColor float sampleFloat64 deep lch)
         (@palette float sampleFloat64
            (destructure (withVariant (SwatchOptions.empty float) deep)))) = Some d
    /\ obj_get 500
         (@shades float sampleFloat64 (@workingColor float sampleFloat64 base lch)
            (@palette float sampleFloat64
               (destructure (withVariant (SwatchOptions.empty float) base)))) = Some b
    /\ PrimFloat.ltb (c b) (c d) = false.
Proof.
  intros lch.
  destruct (proj2 (deep_chroma_at_most_base pow_sqrt) (SwatchOptions.empty float) lch
              500%Z
              (@lightnessOf float sampleFloat64
                 (destructure (withVariant (SwatchOptions.empty float) base)) 5)
              eq_refl eq_refl)
    as (d & b & Hd & Hb & Hle & _).
  exists d, b. auto.
Defined.

(** * Further properties of [swatch] and [shadeColor] *)

Local Open Scope list_scope.

(** ** For every reading of the numbers *)

Section Behaviour.

Context {N : Type} {num : Number N}.
Variable lib : Collaborators N.

Local Open Scope js_scope.

(** The representation line 141 infers. *)
Lemma colorFormat_value (input : JsValue) :
  outcome (colorFormat lib input) =
  inr (if isHex lib input || isNamedColor lib input then "hex"%string
       else model (extractColorParts lib input)).
Proof.
  unfold colorFormat, called. rewrite outcome_bind. cbn [outcome snd].
  destruct (isHex lib input); [reflexivity |].
  rewrite outcome_bind. cbn [outcome snd orb].
  destruct (isNamedColor lib input); [reflexivity |].
  rewrite outcome_bind. reflexivity.
Qed.


(** A failing call of [formatCSS] ends the formatting with
    [UnsupportedFormat]. *)
Lemma formatted_failure entries fmt acc color fmt' :
  In (CallFormatCSS color fmt') (calls (formatted lib entries fmt acc)) ->
  formatCSS lib color fmt' = None ->
  outcome (formatted lib entries fmt acc) = inl UnsupportedFormat.
Proof.
  revert acc. induction entries as [| [k v] rest IH]; intros acc Hin Hnone.
  - cbn in Hin. contradiction.
  - cbn [formatted] in Hin |- *. rewrite calls_bind in Hin.
    rewrite outcome_bind. unfold called_or in *.
    cbn [calls outcome fst snd app] in Hin |- *.
    destruct Hin as [Heq | Hin].
    + inversion Heq; subst. now rewrite Hnone.
    + destruct (formatCSS lib v fmt); [eapply IH; eassumption | reflexivity].
Qed.

(** What a successful formatting made of ascending entries: one call and one
    text per entry, in order. *)
Lemma formatted_success entries fmt acc cs sw :
  formatted lib entries fmt acc = (cs, inr sw) ->
  ascending (obj_keys acc ++ obj_keys entries) = true ->
  cs = map (fun e => CallFormatCSS (snd e) fmt) entries
  /\ exists texts,
       sw = acc ++ texts
       /\ Forall2
            (fun e kt => fst kt = fst e /\ formatCSS lib (snd e) fmt = Some (snd kt))
            entries texts.
Proof.
  revert acc cs. induction entries as [| [k v] rest IH]; intros acc cs Hrun Hasc.
  - cbn in Hrun. inversion Hrun; subst. split; [reflexivity |].
    exists []. rewrite app_nil_r. split; [reflexivity | constructor].
  - cbn [formatted] in Hrun. unfold called_or in Hrun.
    destruct (formatCSS lib v fmt) as [text |] eqn:Hv; [| discriminate].
    cbn [bind] in Hrun.
    destruct (formatted lib rest fmt (obj_set k text acc)) as [cs' r] eqn:Hrest.
    inversion Hrun; subst cs r. clear Hrun.
    cbn [obj_keys map fst] in Hasc.
    rewrite obj_set_above in Hrest by (eapply ascending_before; exact Hasc).
    apply IH in Hrest.
    + destruct Hrest as (-> & texts & -> & Hall). split; [reflexivity |].
      exists ((k, text) :: texts). rewrite <- app_assoc. split; [reflexivity |].
      constructor; [split; [reflexivity | exact Hv] | exact Hall].
    + unfold obj_keys in *. rewrite map_app, <- app_assoc. exact Hasc.
Qed.

Lemma forall2_lookup (A B : Type) (rel : A -> B -> Prop)
  (xs : Obj A) (ys : Obj B) (key : Z) (x : A) :
  Forall2 (fun e kt => fst kt = fst e /\ rel (snd e) (snd kt)) xs ys ->
  obj_get key xs = Some x ->
  exists y, obj_get key ys = Some y /\ rel x y.
Proof.
  induction 1 as [| [k a] [k' b] xs' ys' [Hk Hrel] _ IH]; cbn [obj_get].
  - discriminate.
  - cbn [fst snd] in Hk, Hrel. subst k'.
    destruct (key =? k)%Z; [| exact IH].
    intros Heq. inversion Heq; subst. exists b. auto.
Qed.

(** A successful run, opened up: the parsed color, the representation and
    what the two reductions produced. *)
Lemma swatch_success input options cs sw :
  swatch lib input options = (cs, inr sw) ->
  let s := destructure options in
  let fmt :=
    default_of (if isHex lib input || isNamedColor lib input then "hex"%string
                else model (extractColorParts lib input)) (format s) in
  exists lch,
    parseCSS lib input "oklch"%string = Some lch
    /\ swatchStepsOk s = true
    /\ cs = CallParseCSS input "oklch"%string
            :: calls (colorFormat lib input)
            ++ map (fun e => CallFormatCSS (snd e) fmt)
                 (shades (workingColor (variant s) lch) (palette s))
    /\ Forall2
         (fun e kt => fst kt = fst e /\ formatCSS lib (snd e) fmt = Some (snd kt))
         (shades (workingColor (variant s) lch) (palette s)) sw.
Proof.
  intros Hrun s fmt. unfold swatch in Hrun.
  destruct (isString input) eqn:Hinput;
    [| rewrite swatchWith_invalid_input in Hrun by assumption; discriminate].
  destruct (lightnessRangeOk (destructure options)) eqn:Hrange;
    [| rewrite swatchWith_invalid_range in Hrun by assumption; discriminate].
  destruct (swatchStepsOk (destructure options)) eqn:Hsteps;
    [| rewrite swatchWith_invalid_steps in Hrun by assumption; discriminate].
  rewrite swatchWith_checked in Hrun by assumption.
  apply bind_value in Hrun. destruct Hrun as (c1 & lch & c2 & Hparse & Hrender & ->).
  unfold called_or in Hparse.
  destruct (parseCSS lib input "oklch"%string) as [lch' |]; [| discriminate].
  inversion Hparse; subst c1 lch'. clear Hparse.
  exists lch. split; [reflexivity |]. split; [exact Hsteps |].
  unfold render in Hrender. apply bind_value in Hrender.
  destruct Hrender as (c3 & inferred & c4 & Hinfer & Hformat & ->).
  pose proof (colorFormat_value input) as Hvalue.
  rewrite Hinfer in Hvalue. cbn [outcome snd] in Hvalue.
  inversion Hvalue; subst inferred. clear Hvalue.
  apply formatted_success in Hformat.
  - destruct Hformat as (-> & texts & Hsw & Hall). cbn [app] in Hsw. subst texts.
    split; [| exact Hall].
    rewrite Hinfer. cbn [calls fst app]. reflexivity.
  - cbn [obj_keys map app]. fold (@obj_keys (LCH N)).
    rewrite shades_keys by (apply palette_ascending; assumption).
    apply palette_ascending. assumption.
Qed.

(** Only [formatCSS] is called while formatting. *)
Lemma formatted_calls_kind entries fmt acc call :
  In call (calls (formatted lib entries fmt acc)) -> isFormatCall call = true.
Proof.
  revert acc. induction entries as [| [k v] rest IH]; intros acc Hin.
  - cbn in Hin. contradiction.
  - cbn [formatted] in Hin. rewrite calls_bind in Hin.
    unfold called_or in Hin. cbn [calls outcome fst snd app] in Hin.
    destruct Hin as [<- | Hin]; [reflexivity |].
    destruct (formatCSS lib v fmt); [eapply IH; exact Hin | contradiction].
Qed.

Lemma colorFormat_calls_kind input :
  filter isFormatCall (calls (colorFormat lib input)) = [].
Proof.
  unfold colorFormat, called. rewrite calls_bind. cbn [calls outcome fst snd].
  destruct (isHex lib input); [reflexivity |].
  rewrite calls_bind. cbn [calls outcome fst snd].
  destruct (isNamedColor lib input); reflexivity.
Qed.

(** The calls of a run past the checks: the parse, then the classification,
    then the formatting. *)
Lemma swatch_calls input options :
  calls (swatch lib input options) = []
  \/ calls (swatch lib input options) = [CallParseCSS input "oklch"%string]
  \/ exists lch,
       parseCSS lib input "oklch"%string = Some lch
       /\ calls (swatch lib input options) =
          CallParseCSS input "oklch"%string
          :: calls (colorFormat lib input)
          ++ calls (formatted lib
                     (shades (workingColor (variant (destructure options)) lch)
                        (palette (destructure options)))
                     (default_of
                        (if isHex lib input || isNamedColor lib input
                         then "hex"%string
                         else model (extractColorParts lib input))
                        (format (destructure options))) [])
       /\ outcome (swatch lib input options) =
          outcome (formatted lib
                     (shades (workingColor (variant (destructure options)) lch)
                        (palette (destructure options)))
                     (default_of
                        (if isHex lib input || isNamedColor lib input
                         then "hex"%string
                         else model (extractColorParts lib input))
                        (format (destructure options))) []).
Proof.
  unfold swatch.
  destruct (isString input) eqn:Hinput;
    [| rewrite swatchWith_invalid_input by assumption; now left].
  destruct (lightnessRangeOk (destructure options)) eqn:Hrange;
    [| rewrite swatchWith_invalid_range by assumption; now left].
  destruct (swatchStepsOk (destructure options)) eqn:Hsteps;
    [| rewrite swatchWith_invalid_steps by assumption; now left].
  rewrite swatchWith_checked by assumption. right.
  rewrite calls_bind, outcome_bind. unfold called_or. cbn [calls outcome fst snd].
  destruct (parseCSS lib input "oklch"%string) as [lch |]; [right | now left].
  exists lch. split; [reflexivity |].
  unfold render. rewrite calls_bind, outcome_bind, colorFormat_value.
  cbn [app]. split; reflexivity.
Qed.

(** X1: each entry of a returned swatch is the text [formatCSS] gave for
    [shadeColor] of the working color at the lightness the tone table holds
    for that tone, in the resolved representation. *)
Theorem swatch_entries (input : JsValue) (options : SwatchOptions N) (sw : Swatch) :
  outcome (swatch lib input options) = inr sw ->
  let s := destructure options in
  let fmt :=
    default_of (if isHex lib input || isNamedColor lib input then "hex"%string
                else model (extractColorParts lib input)) (format s) in
  exists lch,
    parseCSS lib input "oklch"%string = Some lch
    /\ forall (tone : Z) (lightness : N),
         obj_get tone (palette s) = Some lightness ->
         exists text,
           obj_get tone sw = Some text
           /\ formatCSS lib
                (shadeColor (workingColor (variant s) lch) lightness) fmt
              = Some text.
Proof.
  intros Hrun s fmt.
  destruct (swatch lib input options) as [cs r] eqn:Hswatch.
  cbn [outcome snd] in Hrun. subst r.
  destruct (swatch_success input options cs sw Hswatch)
    as (lch & Hparse & Hsteps & _ & Hall).
  exists lch. split; [exact Hparse |].
  intros tone lightness Hget.
  rewrite shades_entries in Hall by (apply palette_ascending; exact Hsteps).
  eapply (forall2_lookup _ _ (fun color text => formatCSS lib color fmt = Some text))
    in Hall.
  - destruct Hall as (text & Htext & Hfmt). exists text. split; eassumption.
  - rewrite obj_get_map. fold s. rewrite Hget. reflexivity.
Qed.


(** X3: when [parseCSS] rejects a non-empty string given with valid options,
    [swatch] fails with [UnparseableColor] and the parse is the only
    collaborator call: nothing is classified or formatted. *)
Theorem swatch_unparseable (input : JsValue) (options : SwatchOptions N) :
  isString input = true ->
  lightnessRangeOk (destructure options) = true ->
  swatchStepsOk (destructure options) = true ->
  parseCSS lib input "oklch"%string = None ->
  swatch lib input options =
  ([CallParseCSS input "oklch"%string], inl UnparseableColor).
Proof.
  intros Hinput Hrange Hsteps Hparse. unfold swatch.
  rewrite swatchWith_checked by assumption.
  unfold called_or. rewrite Hparse. reflexivity.
Qed.

(** X4: when a call of [formatCSS] that [swatch] makes fails, [swatch] fails
    with [UnsupportedFormat]: no partial swatch is returned. *)
Theorem swatch_unsupported_format (input : JsValue) (options : SwatchOptions N)
  (color : LCH N) (fmt : ColorType) :
  In (CallFormatCSS color fmt) (calls (swatch lib input options)) ->
  formatCSS lib color fmt = None ->
  outcome (swatch lib input options) = inl UnsupportedFormat.
Proof.
  intros Hin Hnone.
  destruct (swatch_calls input options) as [H | [H | (lch & _ & H & Hout)]];
    rewrite H in Hin.
  - contradiction.
  - destruct Hin as [Hin | []]. discriminate.
  - destruct Hin as [Hin | Hin]; [discriminate |].
    apply in_app_or in Hin. destruct Hin as [Hin | Hin].
    + now apply colorFormat_calls in Hin.
    + rewrite Hout. eapply formatted_failure; eassumption.
Qed.

(** X5: a run that returns calls [formatCSS] once per entry of the tone
    table, in ascending tone order, on the shaded color of that entry: 11 or
    21 calls, as [swatchSteps] says. *)
Theorem swatch_format_calls (input : JsValue) (options : SwatchOptions N)
  (sw : Swatch) :
  outcome (swatch lib input options) = inr sw ->
  let s := destructure options in
  exists lch fmt,
    parseCSS lib input "oklch"%string = Some lch
    /\ filter isFormatCall (calls (swatch lib input options)) =
       map (fun entry =>
              CallFormatCSS
                (shadeColor (workingColor (variant s) lch) (snd entry)) fmt)
         (palette s)
    /\ List.length (filter isFormatCall (calls (swatch lib input options))) =
       Z.to_nat (swatchSteps s).
Proof.
  intros Hrun s.
  destruct (swatch lib input options) as [cs r] eqn:Hswatch.
  cbn [outcome snd] in Hrun. subst r.
  destruct (swatch_success input options cs sw Hswatch)
    as (lch & Hparse & Hsteps & Hcs & _).
  exists lch. eexists. split; [exact Hparse |].
  assert (Hfilter :
    filter isFormatCall (calls (cs, @inr Error Swatch sw)) =
    map (fun entry =>
           CallFormatCSS
             (shadeColor (workingColor (variant s) lch) (snd entry))
             (default_of
                (if isHex lib input || isNamedColor lib input then "hex"%string
                 else model (extractColorParts lib input)) (format s)))
      (palette s)).
  { cbn [calls fst]. rewrite Hcs. cbn [filter isFormatCall].
    rewrite filter_app, colorFormat_calls_kind. cbn [app].
    rewrite shades_entries by (apply palette_ascending; exact Hsteps).
    fold s. rewrite map_map. cbn [snd].
    induction (palette s) as [| e rest IH]; [reflexivity |].
    cbn [map filter isFormatCall]. now rewrite IH. }
  split; [exact Hfilter |].
  rewrite Hfilter, length_map.
  assert (Hlen : List.length (palette s) = List.length (obj_keys (palette s)))
    by (unfold obj_keys; now rewrite length_map).
  rewrite Hlen, palette_keys by exact Hsteps.
  destruct (swatchStepsOk_cases s Hsteps) as [-> | ->]; reflexivity.
Qed.

Lemma bind_ext (A B : Type) (m : M N A) (f g : A -> M N B) :
  (forall a, f a = g a) -> bind m f = bind m g.
Proof.
  intros H. destruct m as [cs [e | a]]; cbn [bind]; [reflexivity |].
  now rewrite H.
Qed.

Lemma formatted_withParsedLightness relight entries fmt acc :
  formatted (withParsedLightness lib relight) entries fmt acc =
  formatted lib entries fmt acc.
Proof.
  revert acc. induction entries as [| [k v] rest IH]; intros acc; [reflexivity |].
  cbn [formatted withParsedLightness formatCSS].
  destruct (formatCSS lib v fmt); cbn [called_or bind]; [| reflexivity].
  now rewrite IH.
Qed.

(** X6: the lightness of the parsed color never reaches the result: with the
    lightness of every parsed color replaced, [swatch] makes the same calls
    and returns the same swatch. *)
Theorem swatch_ignores_input_lightness
  (relight : JsValue -> LCH N -> N) (input : JsValue) (options : SwatchOptions N) :
  swatch (withParsedLightness lib relight) input options =
  swatch lib input options.
Proof.
  unfold swatch, swatchWith.
  destruct (isString input); [| reflexivity].
  destruct (lightnessRangeOk (destructure options)); [| reflexivity].
  destruct (swatchStepsOk (destructure options)); [| reflexivity].
  cbn [invariant]. rewrite !bind_ret.
  change (parseCSS (withParsedLightness lib relight) input "oklch"%string)
    with (option_map
            (fun lch => {| l := relight input lch; c := c lch; h := h lch |})
            (parseCSS lib input "oklch"%string)).
  unfold called_or.
  destruct (parseCSS lib input "oklch"%string) as [lch |]; [| reflexivity].
  cbn [option_map bind].
  assert (Hrender :
    render (withParsedLightness lib relight) workingColor input
      (destructure options)
      {| l := relight input lch; c := c lch; h := h lch |} =
    render lib workingColor input (destructure options) lch).
  { unfold render.
    change (colorFormat (withParsedLightness lib relight) input)
      with (colorFormat lib input).
    apply bind_ext. intros inferred.
    rewrite formatted_withParsedLightness. reflexivity. }
  rewrite Hrender. reflexivity.
Qed.

(** X7: every color handed to [formatCSS] has the hue of the parsed color and
    the lightness of an entry of the tone table. *)
Theorem formatted_colors_hue_and_lightness
  (input : JsValue) (options : SwatchOptions N) (color : LCH N) (fmt : ColorType) :
  In (CallFormatCSS color fmt) (calls (swatch lib input options)) ->
  exists lch tone,
    parseCSS lib input "oklch"%string = Some lch
    /\ In (tone, l color) (palette (destructure options))
    /\ h color = h lch.
Proof.
  intros Hin. apply swatch_formatted_colors in Hin.
  destruct Hin as (lch & tone & lightness & Hparse & _ & Htable & ->).
  exists lch, tone. split; [exact Hparse |]. split.
  - exact Htable.
  - destruct (variant (destructure options)); reflexivity.
Qed.

(** Every call is the parse, a classification call or a formatting call. *)
Lemma swatch_calls_kinds input options call :
  In call (calls (swatch lib input options)) ->
  call = CallParseCSS input "oklch"%string
  \/ In call (calls (colorFormat lib input))
  \/ isFormatCall call = true.
Proof.
  intros Hin.
  destruct (swatch_calls input options) as [H | [H | (lch & _ & H & _)]];
    rewrite H in Hin.
  - contradiction.
  - destruct Hin as [<- | []]. now left.
  - destruct Hin as [<- | Hin]; [now left |].
    apply in_app_or in Hin. destruct Hin as [Hin | Hin].
    + right. now left.
    + right. right. eapply formatted_calls_kind. exact Hin.
Qed.

(** X8: the classification of line 141 short-circuits: [isNamedColor] is
    called only when [isHex] said no, and [extractColorParts] only when both
    said no. *)
Theorem classifier_short_circuit (input : JsValue) (options : SwatchOptions N)
  (asked : JsValue) :
  (In (CallIsNamedColor asked) (calls (swatch lib input options)) ->
   isHex lib input = false)
  /\ (In (CallExtractColorParts asked) (calls (swatch lib input options)) ->
      isHex lib input = false /\ isNamedColor lib input = false).
Proof.
  split; intros Hin; apply swatch_calls_kinds in Hin;
    destruct Hin as [Hin | [Hin | Hin]]; try discriminate;
    revert Hin; unfold colorFormat, called; rewrite calls_bind;
    cbn [calls outcome fst snd]; destruct (isHex lib input).
  - intros [H | []]. discriminate.
  - reflexivity.
  - intros [H | []]. discriminate.
  - rewrite calls_bind. cbn [calls outcome fst snd].
    destruct (isNamedColor lib input).
    + intros [H | [H | []]]; discriminate.
    + auto.
Qed.

End Behaviour.

(** ** In binary64 *)

Section Binary64Behaviour.

Variable Math_pow : float -> float -> float.

#[local] Hint Extern 0 (Number float) =>
  exact (Float64 Math_pow) : typeclass_instances.

Local Open Scope js_scope.

(** A comparison with NaN is false on either side. *)
Lemma float_ltb_nan (x y : float) :
  PrimFloat.is_nan x = true ->
  PrimFloat.ltb x y = false /\ PrimFloat.ltb y x = false.
Proof.
  unfold PrimFloat.is_nan. rewrite negb_true_iff, eqb_spec, !ltb_spec.
  unfold SFeqb, SFltb. intros Hx.
  assert (Hnan : Prim2SF x = S754_nan).
  { destruct (Prim2SF x) as [s | s | | s m e] eqn:Hsx; [| | reflexivity |];
      rewrite SFcompare_refl in Hx by discriminate; discriminate. }
  rewrite Hnan. split; [reflexivity |].
  destruct (Prim2SF y); reflexivity.
Qed.

(** X9: a [maxLightness] or [minLightness] that is NaN fails the lightness
    check: for a non-empty string input [swatch] fails with [InvalidOptions]
    before any collaborator is called. *)
Theorem swatch_rejects_nan_bounds
  (lib : Collaborators float) (input : JsValue) (options : SwatchOptions float) :
  let s := destructure options in
  isString input = true ->
  PrimFloat.is_nan (maxLightness s) = true
  \/ PrimFloat.is_nan (minLightness s) = true ->
  exists message,
    swatch lib input options = ([], inl (InvalidOptions message)).
Proof.
  intros s Hinput Hnan. eexists.
  apply swatchWith_invalid_range; [exact Hinput |].
  unfold lightnessRangeOk. cbn [jlt Float64]. fold s.
  assert (Hlt : PrimFloat.ltb (minLightness s) (maxLightness s) = false).
  { destruct Hnan as [H | H].
    - exact (proj2 (float_ltb_nan _ (minLightness s) H)).
    - exact (proj1 (float_ltb_nan _ (maxLightness s) H)). }
  rewrite Hlt. reflexivity.
Qed.

(** X10: at every lightness the shaded chroma never falls as the variant's
    multiplier grows: subtle, pastel, neutral, deep, base, vibrant, in that
    order; no variant has a higher shaded chroma than the next one. *)
Theorem shaded_chroma_by_variant (lch : LCH float) (lightness : float) :
  let chroma := fun v => c (shadeColor (workingColor v lch) lightness) in
  PrimFloat.ltb (chroma pastel) (chroma subtle) = false
  /\ PrimFloat.ltb (chroma neutral) (chroma pastel) = false
  /\ PrimFloat.ltb (chroma deep) (chroma neutral) = false
  /\ PrimFloat.ltb (chroma base) (chroma deep) = false
  /\ PrimFloat.ltb (chroma vibrant) (chroma base) = false.
Proof.
  intros chroma. unfold chroma.
  repeat split; apply (shaded_chroma_order Math_pow); reflexivity.
Qed.

(** A finite value times 0 is a zero. *)
Lemma float_mul_zero (x : float) :
  PrimFloat.is_finite x = true ->
  PrimFloat.eqb (PrimFloat.mul x PrimFloat.zero) PrimFloat.zero = true.
Proof.
  intros Hx. apply is_finite_spec in Hx. rewrite eqb_spec, mul_spec.
  destruct (Prim2SF x) as [s | s | | s m e]; cbn [SFfinite] in Hx; try contradiction;
    destruct s; reflexivity.
Qed.

(** [clamp] leaves a zero a zero. *)
Lemma clamp_zero (x : float) :
  PrimFloat.eqb x PrimFloat.zero = true ->
  PrimFloat.eqb (clamp x (lit 0) (lit 0.4)) PrimFloat.zero = true.
Proof.
  intros Hx. destruct (float_eqb_zero x Hx) as [-> | ->]; reflexivity.
Qed.

(** X11: [shadeColor] gives a finite chroma the chroma 0 at the lightness 0
    and at the lightness 1, and at the lightness 0.5 a chroma that is not
    negative comes out capped at 0.4 and otherwise unchanged. *)
Theorem shadeColor_chroma_profile (input : LCH float) :
  PrimFloat.is_finite (c input) = true ->
  (c (shadeColor input (lit 0)) === lit 0) = true
  /\ (c (shadeColor input (lit 1)) === lit 0) = true
  /\ ((lit 0 <=? c input) = true ->
      c (shadeColor input (lit 0.5)) =
      if lit 0.4 <? c input then lit 0.4 else c input).
Proof.
  intros Hfinite.
  assert (Hends : forall lightness,
            lit 4 * lightness * (lit 1 - lightness) = PrimFloat.zero ->
            (c (shadeColor input lightness) === lit 0) = true).
  { intros lightness Hscale. unfold shadeColor. cbn [c]. rewrite Hscale.
    cbn [jmul jeq lit Float64].
    destruct (PrimFloat.eqb (c input) (float_lit 0)) eqn:Hzero.
    - change (float_lit 1) with PrimFloat.one. rewrite float_mul_one.
      apply clamp_zero. exact Hzero.
    - apply clamp_zero. apply float_mul_zero. exact Hfinite. }
  split; [apply Hends; reflexivity |]. split; [apply Hends; reflexivity |].
  intros Hchroma. unfold shadeColor. cbn [c].
  assert (Hscale : lit 4 * lit 0.5 * (lit 1 - lit 0.5) = PrimFloat.one) by reflexivity.
  rewrite Hscale. cbn [jmul jeq jlt lit Float64].
  change (float_lit 1) with PrimFloat.one.
  assert (Hproduct : PrimFloat.mul (c input)
                       (if PrimFloat.eqb (c input) (float_lit 0)
                        then PrimFloat.one else PrimFloat.one) = c input)
    by (destruct (PrimFloat.eqb (c input) (float_lit 0)); apply float_mul_one).
  rewrite Hproduct. unfold clamp. cbn [jlt Float64].
  cbn [jle lit Float64] in Hchroma.
  rewrite (float_leb_ltb _ _ Hchroma). reflexivity.
Qed.

Lemma indices_range (n i : Z) : In i (indices n) -> (0 <= i < n)%Z.
Proof.
  unfold indices. intros H. apply in_map_iff in H.
  destruct H as (k & <- & Hk). apply in_seq in Hk. lia.
Qed.

(** The literals of the fixed tables lie strictly between 0 and 1. *)
Lemma fixed_lightness_in_unit_interval (tone : Z) (lightness : float) :
  In (tone, lightness) fixedPalette11 \/ In (tone, lightness) fixedPalette21 ->
  PrimFloat.ltb PrimFloat.zero lightness = true
  /\ PrimFloat.ltb lightness PrimFloat.one = true.
Proof.
  unfold fixedPalette11, fixedPalette21. cbn [In].
  intros [H | H];
    repeat (destruct H as [H | H];
            [inversion H; subst; split; reflexivity |]);
    contradiction.
Qed.

Lemma palette_lightness_bounds
  (options : SwatchOptions float) (tone : Z) (lightness : float) :
  let s := destructure options in
  lightnessRangeOk s = true ->
  swatchStepsOk s = true ->
  (scale s = dynamic -> PowRises Math_pow (lightnessFactor s)) ->
  In (tone, lightness) (palette s) ->
  (lit 0 <=? lightness) = true
  /\ (lightness <=? lit 1) = true
  /\ (scale s = dynamic -> (lightness <=? maxLightness s) = true).
Proof.
  intros s Hrange Hsteps Hpow Hin.
  unfold palette in Hin. destruct (scale s) eqn:Hscale.
  - specialize (Hpow eq_refl).
    rewrite (dynamicPalette_entries s Hsteps) in Hin.
    apply in_map_iff in Hin. destruct Hin as (i & Heq & Hi).
    apply (f_equal snd) in Heq. cbn [snd] in Heq. subst lightness.
    apply indices_range in Hi.
    destruct (lightnessOf_order Math_pow s i i Hrange Hsteps Hpow ltac:(lia) ltac:(lia))
      as (_ & Hlow & Hhigh).
    assert (Hmax : PrimFloat.leb (maxLightness s) PrimFloat.one = true).
    { unfold lightnessRangeOk in Hrange.
      apply andb_true_iff in Hrange. destruct Hrange as [Hrange _].
      apply andb_true_iff in Hrange. destruct Hrange as [_ Hmax]. exact Hmax. }
    split; [exact Hlow |].
    split; [exact (float_leb_trans _ _ _ Hhigh Hmax) | intros _; exact Hhigh].
  - assert (Hunit : PrimFloat.ltb PrimFloat.zero lightness = true
                    /\ PrimFloat.ltb lightness PrimFloat.one = true).
    { apply (fixed_lightness_in_unit_interval tone).
      destruct (swatchSteps s =? 11)%Z; [left | right]; exact Hin. }
    destruct Hunit as [H0 H1].
    split; [exact (float_ltb_leb _ _ H0) |].
    split; [exact (float_ltb_leb _ _ H1) | discriminate].
Qed.


(** A run that calls a collaborator has passed the lightness check. *)
Lemma swatch_calls_checked
  (lib : Collaborators float) (input : JsValue) (options : SwatchOptions float)
  (call : Call float) :
  In call (calls (swatch lib input options)) ->
  lightnessRangeOk (destructure options) = true.
Proof.
  intros Hin. unfold swatch in Hin.
  destruct (isString input) eqn:Hinput;
    [| rewrite swatchWith_invalid_input in Hin by assumption; contradiction].
  destruct (lightnessRangeOk (destructure options)) eqn:Hrange;
    [reflexivity |
     rewrite swatchWith_invalid_range in Hin by assumption; contradiction].
Qed.

(** X16: for valid options, when [**] at the exponent [lightnessFactor] is 0
    at 0, 1 at 1 and does not fall as its base rises within [0, 1], and the
    parsed chroma times the variant's multiplier is finite, every color
    handed to [formatCSS] has a chroma that is a number in [0, 0.4]. *)
Theorem swatch_chroma_is_number
  (lib : Collaborators float) (input : JsValue) (options : SwatchOptions float)
  (lch color : LCH float) (fmt : ColorType) :
  let s := destructure options in
  (scale s = dynamic -> PowRises Math_pow (lightnessFactor s)) ->
  parseCSS lib input "oklch"%string = Some lch ->
  PrimFloat.is_finite (c lch * chromaScale (variant s)) = true ->
  In (CallFormatCSS color fmt) (calls (swatch lib input options)) ->
  (lit 0 <=? c color) = true /\ (c color <=? lit 0.4) = true.
Proof.
  intros s Hpow Hparse Hfinite Hin.
  pose proof (swatch_calls_checked lib input options _ Hin) as Hrange.
  apply swatch_formatted_colors in Hin.
  destruct Hin as (lch' & tone & lightness & Hparse' & Hsteps & Htable & ->).
  rewrite Hparse in Hparse'. inversion Hparse'; subst lch'. clear Hparse'.
  destruct (palette_lightness_bounds options tone lightness Hrange Hsteps Hpow Htable)
    as (H0 & H1 & _).
  rewrite (shaded_chroma_eq Math_pow).
  apply (clamp_between Math_pow PrimFloat.zero (float_lit 0.4) chroma_range_ok).
  apply raw_not_nan; [exact Hfinite |].
  apply parabola_finite; [reflexivity | exact H0 | exact H1].
Qed.

End Binary64Behaviour.

(** ** The fixed tables *)

(** X15: in both readings the lightness of each fixed table strictly falls
    from every tone to the next: the lowest tone label is the lightest
    entry. *)
Theorem fixed_tables_fall :
  (forall Math_pow : float -> float -> float,
      @falling float (Float64 Math_pow)
        (map snd (@fixedPalette11 float (Float64 Math_pow))) = true
      /\ @falling float (Float64 Math_pow)
           (map snd (@fixedPalette21 float (Float64 Math_pow))) = true)
  /\ (forall power : R -> R -> R,
        @falling R (Exact power) (map snd (@fixedPalette11 R (Exact power))) = true
        /\ @falling R (Exact power)
             (map snd (@fixedPalette21 R (Exact power))) = true).
Proof.
  split.
  - intros Math_pow. split; vm_compute; reflexivity.
  - intros power.
    split; cbn [fixedPalette11 fixedPalette21 map snd falling jlt lit Exact];
      repeat (apply andb_true_intro; split;
              [apply Rltb_true; rewrite !Q2R_decimal; lra |]);
      reflexivity.
Qed.

(** ** Closed instances of the further properties *)

Lemma swatch_entries_witness :
  exists lch,
    parseCSS (@sampleLib float sampleFloat64) (JsString "#3b82f6") "oklch"
    = Some lch.
Proof.
  destruct (@swatch_entries float sampleFloat64 sampleLib (JsString "#3b82f6")
              (SwatchOptions.empty float)
              (map (fun tone => (tone, "hex")) labels11))
    as (lch & Hparse & _).
  - vm_compute. reflexivity.
  - exists lch. exact Hparse.
Defined.


Lemma swatch_unparseable_witness :
  @swatch float sampleFloat64 sampleLib (JsString "not a color")
    (SwatchOptions.empty float) =
  ([CallParseCSS (JsString "not a color") "oklch"], inl UnparseableColor).
Proof.
  apply swatch_unparseable; vm_compute; reflexivity.
Defined.

Lemma swatch_unsupported_format_witness :
  outcome (@swatch float sampleFloat64 sampleLibNoFormat (JsString "#3b82f6")
             (SwatchOptions.empty float)) = inl UnsupportedFormat.
Proof.
  eapply (@swatch_unsupported_format float sampleFloat64 sampleLibNoFormat
            (JsString "#3b82f6") (SwatchOptions.empty float) _ "hex").
  - vm_compute. do 2 right. left. reflexivity.
  - reflexivity.
Defined.

Lemma swatch_format_calls_witness :
  List.length
    (filter isFormatCall
       (calls (@swatch float sampleFloat64 sampleLib (JsString "#3b82f6")
                 (SwatchOptions.empty float)))) = 11%nat.
Proof.
  destruct (@swatch_format_calls float sampleFloat64 sampleLib (JsString "#3b82f6")
              (SwatchOptions.empty float)
              (map (fun tone => (tone, "hex")) labels11))
    as (lch & fmt & _ & _ & Hlength).
  - vm_compute. reflexivity.
  - exact Hlength.
Defined.

Lemma formatted_colors_hue_and_lightness_witness :
  let parsed := {| l := float_lit 0.5; c := float_lit 0; h := float_lit 0 |} in
  let color := @shadeColor float sampleFloat64
                 (@workingColor float sampleFloat64 base parsed) (float_lit 0.97) in
  exists lch tone,
    parseCSS (@sampleLib float sampleFloat64) (JsString "oklch(0.5 0 0)") "oklch"
    = Some lch
    /\ In (tone, l color)
         (@palette float sampleFloat64 (destructure (SwatchOptions.empty float)))
    /\ h color = h lch.
Proof.
  intros parsed color.
  apply (@formatted_colors_hue_and_lightness float sampleFloat64 sampleLib
           (JsString "oklch(0.5 0 0)") (SwatchOptions.empty float) color "oklch").
  vm_compute. do 4 right. left. reflexivity.
Defined.

Lemma swatch_rejects_nan_bounds_witness :
  exists message,
    @swatch float sampleFloat64 sampleLib (JsString "#3b82f6")
      (lightnessBounds PrimFloat.nan (float_lit 0.2)) =
    ([], inl (InvalidOptions message)).
Proof.
  apply (swatch_rejects_nan_bounds pow_sqrt sampleLib (JsString "#3b82f6")
           (lightnessBounds PrimFloat.nan (float_lit 0.2))).
  - reflexivity.
  - left. reflexivity.
Defined.

Lemma shadeColor_chroma_profile_witness :
  c (@shadeColor float sampleFloat64
       {| l := float_lit 0.7; c := float_lit 0.3; h := float_lit 0 |} (float_lit 0.5))
  = float_lit 0.3.
Proof.
  refine (proj2 (proj2 (shadeColor_chroma_profile pow_sqrt
                          {| l := float_lit 0.7; c := float_lit 0.3; h := float_lit 0 |}
                          _)) _);
    reflexivity.
Defined.


Lemma swatch_chroma_is_number_witness :
  let s := @destructure float sampleFloat64 (withFactor (float_lit 1)) in
  let parsed := {| l := float_lit 0.6; c := float_lit 0.15; h := float_lit 250 |} in
  let color := @shadeColor float sampleFloat64
                 (@workingColor float sampleFloat64 base parsed)
                 (@lightnessOf float sampleFloat64 s 0) in
  PrimFloat.leb (float_lit 0) (c color) = true
  /\ PrimFloat.leb (c color) (float_lit 0.4) = true.
Proof.
  intros s parsed color.
  assert (Hparse :
    parseCSS (@sampleLib float sampleFloat64) (JsString "oklch(0.6 0.15 250)") "oklch"
    = Some parsed) by reflexivity.
  apply (swatch_chroma_is_number pow_sqrt sampleLib (JsString "oklch(0.6 0.15 250)")
           (withFactor (float_lit 1)) parsed color "oklch"
           (fun _ => pow_sqrt_rises) Hparse eq_refl).
  vm_compute. do 4 right. left. reflexivity.
Defined.
